(** * collections: the specimen counting robot (main.go)

    A shallow embedding of the aggregation pipeline of [main.go]:
    [readCsvFile] -> [queryWdq] -> [queryCommons] / [queryCommonsSubcats]
    -> merge loop of [queryWdq] -> [updateWikiPage].

    Conventions of the embedding.
    - Go [int] is a 64-bit two's complement integer: a [Z] with the
      wrap-around of every addition written out ([GoInt.add]).
    - Go [string] is [string]; [<] on strings is the bytewise
      lexicographic order.
    - Go maps are [gmap]s; reading an absent key gives the zero value.
    - [specimensByWikidataId] holds slices of specimens.  Its slices are
      written through a copied slice header ([itemSpecimens[i] = specimen]),
      so slices are modelled as headers into a store of backing arrays.
    - A channel with one sender and one receiver is the list of the values
      sent, in order.
    - The remote services, the template engine, [sort.Sort], the growth
      policy of [append] and the iteration order of a map are parameters.
      [sort.Sort] is also given as an algorithm that works on its data
      through [Len], [Less] and [Swap] only ([sort_Sort_on]).
    - A row of the WDQ answer is the pair of the item and the name the
      loop reads from it; the index expressions and type assertions that
      read them from JSON values are [read_row]. *)

From Stdlib Require Import ZArith Lia String Ascii DecimalString DecimalZ OrderedTypeEx.
From stdpp Require Import gmap strings list fin_maps sorting.

Local Open Scope Z_scope.

(** ** Go's [int] *)

Module GoInt.

Definition modulus : Z := 2 ^ 64.
Definition half_modulus : Z := 2 ^ 63.

(** The value of a mathematical integer once stored in an [int]. *)
Definition wrap (z : Z) : Z :=
  (z + half_modulus) mod modulus - half_modulus.

Definition in_range (z : Z) : Prop := - half_modulus <= z < half_modulus.

(** [a + b] on [int]. *)
Definition add (a b : Z) : Z := wrap (a + b).

End GoInt.

(** ** Go's strings: [strings.TrimPrefix], [strconv.Itoa], [<] *)

Module GoString.

(** [strings.TrimPrefix(s, "Q")]. *)
Definition TrimPrefix_Q (s : string) : string :=
  match s with
  | String c rest => if Ascii.eqb c "Q"%char then rest else s
  | EmptyString => s
  end.

(** [strconv.Itoa]: decimal digits, a leading [-] for negatives. *)
Definition Itoa (z : Z) : string := NilZero.string_of_int (Z.to_int z).

(** [strings.Join]. *)
Fixpoint Join (l : list string) (sep : string) : string :=
  match l with
  | [] => EmptyString
  | [s] => s
  | s :: rest => s +:+ sep +:+ Join rest sep
  end.

End GoString.

(** ** Target data structure *)

Record specimen := Specimen {
  OriginalName : string;
  VernacularName : string;
  WikidataItemId : string;
  CommonsCategoryName : string;
  FileCount : Z;
  SubCats : Z;
  SubCatsFileCounts : Z;
  TotalFiles : Z;
  Treatment : string;
  AccessionNumber : string;
  SpecimenCategory : string
}.

(** The zero value of the struct. *)
Definition specimen_zero : specimen :=
  Specimen "" "" "" "" 0 0 0 0 "" "" "".

(** Intermediary structure for Commons interaction. *)
Record categoryInfo := CategoryInfo {
  files : Z;
  subCats : Z;
  subCatsFiles : Z
}.

Definition categoryInfo_zero : categoryInfo := CategoryInfo 0 0 0.

Definition COMMONS_CAT_PROPERTY : string := "373".
Definition CATEGORY_NAMESPACE : string := "Category:".

(** ** Fatal outcomes

    [check] ends the process through [log.Fatal]; [panic] ends it too, no
    [recover] being installed.  Either gives no report at all. *)

Inductive failure :=
| CheckFailed                (* check(e) with e != nil *)
| Panic (msg : string)       (* panic(result.Status.Error) *)
| PanicStatus (status : Z)   (* panic(resp.Status) *)
| IndexOutOfRange.           (* run-time panic of a slice expression *)

Inductive result (A : Type) :=
| Ok (a : A)
| Fatal (e : failure).
Arguments Ok {A} a.
Arguments Fatal {A} e.

#[global] Instance result_ret : MRet result := fun A a => Ok a.
#[global] Instance result_bind : MBind result := fun A B k r =>
  match r with
  | Ok a => k a
  | Fatal e => Fatal e
  end.

(** [check(err)] on a call returning [(value, err)]. *)
Definition check {A} (r : option A) : result A :=
  match r with
  | Some a => Ok a
  | None => Fatal CheckFailed
  end.

(** ** Catalog reader *)

(** One CSV record; [r.FieldsPerRecord = 9] makes [r.Read] fail on any
    other field count. *)
Definition nth_field (record : list string) (i : nat) : string :=
  default EmptyString (record !! i).

Definition specimen_of_record (record : list string) : specimen :=
  {| OriginalName := nth_field record 0;
     VernacularName := nth_field record 1;
     WikidataItemId := nth_field record 7;
     CommonsCategoryName := "";
     FileCount := 0; SubCats := 0; SubCatsFileCounts := 0; TotalFiles := 0;
     Treatment := nth_field record 2 +:+ " / " +:+ nth_field record 3;
     AccessionNumber := nth_field record 6;
     SpecimenCategory := nth_field record 8 |}.

(** [readCsvFile]: the specimens sent on the channel, or the fatal error
    of the first record that does not have nine fields. *)
Fixpoint readCsvFile (rows : list (list string)) : result (list specimen) :=
  match rows with
  | [] => Ok []
  | record :: rest =>
      if (length record =? 9)%nat
      then tl ← readCsvFile rest; Ok (specimen_of_record record :: tl)
      else Fatal CheckFailed
  end.

(** ** Slices of specimens *)

Module Slice.

(** A slice header.  The nil slice has length and capacity 0. *)
Record t := Make { ptr : nat; len : nat; cap : nat }.

Definition nil : t := Make 0 0 0.

(** The store: backing array number [p] is [h !! p]. *)
Abbreviation heap := (list (list specimen)).

(** What [range s] reads. *)
Definition view (h : heap) (s : t) : list specimen :=
  take (len s) (default [] (h !! ptr s)).

Section Append.
(** The capacity [append] gives a new backing array when the old one,
    of capacity [c], is full.  Go only promises that it is large
    enough. *)
Variable growcap : nat -> nat.

(** [append(s, x)]: in place when there is room, else into a fresh
    array holding a copy of the elements. *)
Definition append (h : heap) (s : t) (x : specimen) : heap * t :=
  if (len s <? cap s)%nat then
    (alter (fun arr => <[len s := x]> arr) (ptr s) h,
     Make (ptr s) (S (len s)) (cap s))
  else
    let c := growcap (cap s) in
    (h ++ [view h s ++ x :: replicate (c - S (len s)) specimen_zero],
     Make (length h) (S (len s)) c).
End Append.

(** [s[i] = f(s[i])]. *)
Definition update (f : specimen -> specimen) (s : t) (i : nat) (h : heap) : heap :=
  alter (alter f i) (ptr s) h.

End Slice.

(** ** queryWdq, first loop: grouping *)

Definition with_CommonsCategoryName (n : string) (s : specimen) : specimen :=
  {| OriginalName := OriginalName s;
     VernacularName := VernacularName s;
     WikidataItemId := WikidataItemId s;
     CommonsCategoryName := n;
     FileCount := FileCount s; SubCats := SubCats s;
     SubCatsFileCounts := SubCatsFileCounts s; TotalFiles := TotalFiles s;
     Treatment := Treatment s;
     AccessionNumber := AccessionNumber s;
     SpecimenCategory := SpecimenCategory s |}.

(** The variables of [queryWdq] that its first loop writes. *)
Record grouping := Grouping {
  g_heap : Slice.heap;
  specimensByWikidataId : gmap string Slice.t;
  wikidataIds : list string
}.

Definition grouping_init : grouping := Grouping [] ∅ [].

(** A map read: the zero value, here the nil slice, for an absent key. *)
Definition group_slice (m : gmap string Slice.t) (k : string) : Slice.t :=
  default Slice.nil (m !! k).

Section Grouping.
Variable growcap : nat -> nat.

(** Body of [for i := range specimens]. *)
Definition group_step (g : grouping) (i : specimen) : grouping :=
  let wikidataId := GoString.TrimPrefix_Q (WikidataItemId i) in
  let '(h, s) :=
    Slice.append growcap (g_heap g)
      (group_slice (specimensByWikidataId g) wikidataId) i in
  {| g_heap := h;
     specimensByWikidataId := <[wikidataId := s]> (specimensByWikidataId g);
     wikidataIds := wikidataIds g ++ [wikidataId] |}.

Definition group_specimens (specimens : list specimen) : grouping :=
  foldl group_step grouping_init specimens.
End Grouping.

(** The records of the group of key [k]. *)
Definition group_members (g : grouping) (k : string) : list specimen :=
  Slice.view (g_heap g) (group_slice (specimensByWikidataId g) k).

(** ** Structures for Wikidata Query interaction *)

(** One row of [result.Props["373"]]: [int(itemProp[0].(float64))] and
    [itemProp[2].(string)].  Rows are taken well typed: the two type
    assertions succeed. *)
Definition wdqRow : Type := Z * string.

Record wdqResult := WdqResult {
  Status_Error : string;
  Props : list wdqRow
}.

(** What [napping.Get] hands back when [err == nil]. *)
Record wdqResponse := WdqResponse {
  resp_Status : Z;
  resp_result : wdqResult
}.

(** ** Slice expressions on [categoryNames]

    [categoryNames] is only appended to and read.  A slice of it shares
    cells that no later [append] writes (they lie below its length), so
    a slice taken from it is the list of its elements. *)

(** [l[lo:hi]], with the run-time panic of an index out of range.  The
    bound checked is the length; Go checks the capacity, which is no
    smaller. *)
Definition go_slice {A} (l : list A) (lo hi : Z) : result (list A) :=
  if (0 <=? lo) && (lo <=? hi) && (hi <=? Z.of_nat (length l))
  then Ok (take (Z.to_nat (hi - lo)) (drop (Z.to_nat lo) l))
  else Fatal IndexOutOfRange.

(** [l[lo:]]. *)
Definition go_slice_from {A} (l : list A) (lo : Z) : result (list A) :=
  go_slice l lo (Z.of_nat (length l)).

(** Left fold of a body that may end the process. *)
Fixpoint fold_result {A B} (f : B -> A -> result B) (b : B) (l : list A) : result B :=
  match l with
  | [] => Ok b
  | a :: rest => b' ← f b a; fold_result f b' rest
  end.

(** ** queryWdq, second loop: resolution and batching *)

(** The variables the loop over [result.Props] writes.  [commonsQueries]
    holds, for each [go queryCommons(...)], the names it was given, in
    launch order. *)
Record resolution := Resolution {
  r_heap : Slice.heap;
  categoryNames : list string;
  cursor : Z;
  commonsQueries : list (list string)
}.

(** [for i, specimen := range itemSpecimens { ...; itemSpecimens[i] = specimen }].
    [itemSpecimens] is a copy of the header kept in the map: the writes
    land in the backing array the map's slice points to. *)
Definition set_category (n : string) (itemSpecimens : Slice.t) (h : Slice.heap) : Slice.heap :=
  foldl (fun h i => Slice.update (with_CommonsCategoryName n) itemSpecimens i h)
        h (seq 0 (Slice.len itemSpecimens)).

(** Body of [for i, itemProp := range result.Props[COMMONS_CAT_PROPERTY]]. *)
Definition props_step (m : gmap string Slice.t) (st : resolution)
    (i : Z) (itemProp : wdqRow) : result resolution :=
  let '(itemId, categoryName) := itemProp in
  let itemSpecimens := group_slice m (GoString.Itoa itemId) in
  let h := set_category (CATEGORY_NAMESPACE +:+ categoryName) itemSpecimens (r_heap st) in
  let names := categoryNames st ++ [CATEGORY_NAMESPACE +:+ categoryName] in
  if (0 <? i) && (Z.rem i 50 =? 0) then
    chunk ← go_slice names (i - 50) i;
    Ok {| r_heap := h; categoryNames := names; cursor := i;
          commonsQueries := commonsQueries st ++ [chunk] |}
  else
    Ok {| r_heap := h; categoryNames := names; cursor := cursor st;
          commonsQueries := commonsQueries st |}.

Fixpoint props_loop (m : gmap string Slice.t) (i : Z) (rows : list wdqRow)
    (st : resolution) : result resolution :=
  match rows with
  | [] => Ok st
  | itemProp :: rest =>
      st' ← props_step m st i itemProp;
      props_loop m (i + 1) rest st'
  end.

(** The loop, then the last query with the remaining categories. *)
Definition resolve (g : grouping) (rows : list wdqRow) : result resolution :=
  st ← props_loop (specimensByWikidataId g) 0 rows
        {| r_heap := g_heap g; categoryNames := []; cursor := 0;
           commonsQueries := [] |};
  chunk ← go_slice_from (categoryNames st) (cursor st);
  Ok {| r_heap := r_heap st; categoryNames := categoryNames st;
        cursor := cursor st;
        commonsQueries := commonsQueries st ++ [chunk] |}.

(** ** Commons *)

(** One element of [query.pages]: [GetString("title")] and the two
    [GetInt64("categoryinfo", ...)]; [None] when the getter returns an
    error. *)
Record page := Page {
  p_title : option string;
  p_files : option Z;
  p_subcats : option Z
}.

(** The responses [q.Next()] walks through; [None] is a response whose
    [query.pages] is not an array. *)
Definition responses : Type := list (option (list page)).

Section Commons.
(** The category statistics service: [prop=categoryinfo] for the titles
    joined by [|], and the same through the [categorymembers] generator
    of one category, [gcmtype=subcat]. *)
Variable commons_categoryinfo : string -> responses.
Variable commons_subcats : string -> responses.

(** [queryCommonsSubcats]: count files in one's category subcategories. *)
Definition count_files (totalFiles : Z) (p : page) : Z :=
  match p_files p with
  | Some f => GoInt.add totalFiles f
  | None => totalFiles
  end.

Definition queryCommonsSubcats (categoryName : string) : result Z :=
  fold_result
    (fun totalFiles resp =>
       pages ← check resp;
       Ok (foldl count_files totalFiles pages))
    0 (commons_subcats categoryName).

(** Body of [for _, page := range pages] in [queryCommons]. *)
Definition store_page (categoryMembers : gmap string categoryInfo) (p : page)
    : result (gmap string categoryInfo) :=
  title ← check (p_title p);
  let thisCategoryInfo := default categoryInfo_zero (categoryMembers !! title) in
  let files' := default 0 (p_files p) in
  let subCats' := default 0 (p_subcats p) in
  subCatsFiles' ←
    (if 0 <? subCats' then queryCommonsSubcats title
     else Ok (subCatsFiles thisCategoryInfo));
  Ok (<[title := CategoryInfo files' subCats' subCatsFiles']> categoryMembers).

(** [queryCommons]: categoryinfo about a bunch of categories. *)
Definition queryCommons (categoryMembers : gmap string categoryInfo)
    (names : list string) : result (gmap string categoryInfo) :=
  fold_result
    (fun members resp =>
       pages ← check resp;
       fold_result store_page members pages)
    categoryMembers (commons_categoryinfo (GoString.Join names "|")).

(** The goroutines launched by [queryWdq], run here one after the other in
    launch order on the one shared map (how they interleave is not
    modelled); [queryWdq] goes on once all are done. *)
Definition fetch (queries : list (list string)) : result (gmap string categoryInfo) :=
  fold_result queryCommons ∅ queries.
End Commons.

(** ** queryWdq, third loop: merge *)

Definition merge_specimen (index : gmap string categoryInfo) (s : specimen) : specimen :=
  let thisCategoryInfo := default categoryInfo_zero (index !! CommonsCategoryName s) in
  {| OriginalName := OriginalName s;
     VernacularName := VernacularName s;
     WikidataItemId := WikidataItemId s;
     CommonsCategoryName := CommonsCategoryName s;
     FileCount := files thisCategoryInfo;
     SubCats := subCats thisCategoryInfo;
     SubCatsFileCounts := subCatsFiles thisCategoryInfo;
     TotalFiles := GoInt.add (files thisCategoryInfo) (subCatsFiles thisCategoryInfo);
     Treatment := Treatment s;
     AccessionNumber := AccessionNumber s;
     SpecimenCategory := SpecimenCategory s |}.

(** The specimens sent on [updatedSpecimens], for the groups taken in the
    order [entries]. *)
Definition merge (h : Slice.heap) (index : gmap string categoryInfo)
    (entries : list (string * Slice.t)) : list specimen :=
  flat_map (fun e => merge_specimen index <$> Slice.view h e.2) entries.

(** ** updateWikiPage *)

(** [a[i].OriginalName < a[j].OriginalName]. *)
Definition byOriginalName_Less (a b : specimen) : bool :=
  String.ltb (OriginalName a) (OriginalName b).

(** An index expression [a[i]], with its run-time panic. *)
Definition index_at {A} (a : list A) (i : Z) : result A :=
  if 0 <=? i then
    match a !! Z.to_nat i with
    | Some x => Ok x
    | None => Fatal IndexOutOfRange
    end
  else Fatal IndexOutOfRange.

(** [len(a)]. *)
Definition byOriginalName_Len (a : list specimen) : Z := Z.of_nat (length a).

(** [a[i], a[j] = a[j], a[i]]: both cells are read, then both written. *)
Definition byOriginalName_Swap (a : list specimen) (i j : Z) : result (list specimen) :=
  x ← index_at a i;
  y ← index_at a j;
  Ok (<[Z.to_nat j := x]> (<[Z.to_nat i := y]> a)).

(** [a.Less(i, j)]: both cells are read, and their names compared. *)
Definition byOriginalName_Less_at (a : list specimen) (i j : Z) : result bool :=
  x ← index_at a i;
  y ← index_at a j;
  Ok (byOriginalName_Less x y).

(** [sort.Interface]: the three methods through which [sort.Sort] reads
    and rearranges its data. *)
Record Interface (S : Type) := {
  Len : S -> Z;
  Less : S -> Z -> Z -> result bool;
  Swap : S -> Z -> Z -> result S
}.
Arguments Len {S}.
Arguments Less {S}.
Arguments Swap {S}.

(** The slice of specimens as a [sort.Interface], with the three methods
    of the type [byOriginalName]. *)
Definition byOriginalName : Interface (list specimen) :=
  {| Len := byOriginalName_Len;
     Less := byOriginalName_Less_at;
     Swap := byOriginalName_Swap |}.

(** What [sort.Sort] does after it has read [data.Len()]: calls of [Less],
    whose answers decide what it does next, and calls of [Swap]. *)
Inductive calls : Type :=
| Return
| CallLess (i j : Z) (next : bool -> calls)
| CallSwap (i j : Z) (next : calls).

(** The calls made on [data]; a method that panics ends the run. *)
Fixpoint run {S} (I : Interface S) (c : calls) (data : S) : result S :=
  match c with
  | Return => Ok data
  | CallLess i j next => b ← Less I data i j; run I (next b) data
  | CallSwap i j next => data' ← Swap I data i j; run I next data'
  end.

(** [sort.Sort(data)], for the algorithm of package sort: the calls it
    makes for data of a given length. *)
Definition sort_Sort_on {S} (algorithm : Z -> calls) (I : Interface S) (data : S)
    : result S :=
  run I (algorithm (Len I data)) data.

Record editParams := EditParams {
  e_title : string;
  e_section : string;
  e_text : string;
  e_summary : string;
  e_notminor : string
}.

Section Render.
(** Command line arguments. *)
Variables pageTitle sectionNumber : string.

(** [sort.Sort] on a slice with the given [Less]: the slice afterwards. *)
Variable sort_Sort : (specimen -> specimen -> bool) -> list specimen -> list specimen.

(** [ioutil.ReadFile(templateLocation)], [Parse] with the two
    delimiters set, [Execute] into a buffer (what it wrote, and the
    message of its error if any), [wiki.Edit]. *)
Variable template : Type.
Variable ReadFile : option string.
Variable Parse : string -> option template.
Variable Execute : template -> list specimen -> string * option string.
Variable wiki_Edit : editParams -> option unit.

(** [specimensBuffer] once the channel is drained and [sort.Sort] has run. *)
Definition specimensBuffer (specimens : list specimen) : list specimen :=
  sort_Sort byOriginalName_Less specimens.

(** The edit performed, when none of the [check]s fails.  The error
    [Execute] returns is not looked at. *)
Definition updateWikiPage (specimens : list specimen) : result editParams :=
  templateBytes ← check ReadFile;
  tableTemplate ← check (Parse templateBytes);
  let buf := (Execute tableTemplate (specimensBuffer specimens)).1 in
  let parameters :=
    {| e_title := pageTitle; e_section := sectionNumber; e_text := buf;
       e_summary := "Mise à jour"; e_notminor := "" |} in
  _ ← check (wiki_Edit parameters);
  Ok parameters.
End Render.

(** ** queryWdq *)

Section QueryWdq.
Variable growcap : nat -> nat.
(** [napping.Get(WDQ_API_URL, &query, &result, nil)] for the given [q]
    (and [props = 373]); [None] when it returns an error. *)
Variable wdq_Get : string -> option wdqResponse.
Variable commons_categoryinfo : string -> responses.
Variable commons_subcats : string -> responses.
(** The order in which [range] walks a map; Go leaves it unspecified. *)
Variable range_map : gmap string Slice.t -> list (string * Slice.t).

(** Everything up to the merge loop: the specimens sent on
    [updatedSpecimens]. *)
Definition updatedSpecimens (specimens : list specimen) : result (list specimen) :=
  let g := group_specimens growcap specimens in
  let q := "ITEMS[" +:+ GoString.Join (wikidataIds g) "," +:+ "]" in
  resp ← check (wdq_Get q);
  if resp_Status resp =? 200 then
    if String.eqb (Status_Error (resp_result resp)) "OK" then
      st ← resolve g (Props (resp_result resp));
      index ← fetch commons_categoryinfo commons_subcats (commonsQueries st);
      Ok (merge (r_heap st) index (range_map (specimensByWikidataId g)))
    else Fatal (Panic (Status_Error (resp_result resp)))
  else Fatal (PanicStatus (resp_Status resp)).

Variables pageTitle sectionNumber : string.
Variable sort_Sort : (specimen -> specimen -> bool) -> list specimen -> list specimen.
Variable template : Type.
Variable ReadFile : option string.
Variable Parse : string -> option template.
Variable Execute : template -> list specimen -> string * option string.
Variable wiki_Edit : editParams -> option unit.

Definition queryWdq (specimens : list specimen) : result editParams :=
  updated ← updatedSpecimens specimens;
  updateWikiPage pageTitle sectionNumber sort_Sort template ReadFile Parse
    Execute wiki_Edit updated.
End QueryWdq.

(** ** The rows of the answer, before the type assertions *)

Section Rows.
(** [float64], and the conversion [int(f)]. *)
Variable float64 : Type.
Variable int_of_float64 : float64 -> Z.

(** A value decoded from JSON into an [interface{}]. *)
Inductive value :=
| Float64 (f : float64)
| String_ (s : string)
| Other.

(** [v.(float64)] and [v.(string)]: a value of another type panics. *)
Definition assert_float64 (v : value) : result float64 :=
  match v with
  | Float64 f => Ok f
  | _ => Fatal (Panic "interface conversion")
  end.

Definition assert_string (v : value) : result string :=
  match v with
  | String_ s => Ok s
  | _ => Fatal (Panic "interface conversion")
  end.

(** [itemId := int(itemProp[0].(float64))] and
    [categoryName := itemProp[2].(string)]. *)
Definition read_row (itemProp : list value) : result wdqRow :=
  v0 ← index_at itemProp 0;
  f ← assert_float64 v0;
  v2 ← index_at itemProp 2;
  categoryName ← assert_string v2;
  Ok (int_of_float64 f, categoryName).

(** The loop on [result.Props], each row read as it comes. *)
Fixpoint props_loop_raw (m : gmap string Slice.t) (i : Z) (rows : list (list value))
    (st : resolution) : result resolution :=
  match rows with
  | [] => Ok st
  | itemProp :: rest =>
      row ← read_row itemProp;
      st' ← props_step m st i row;
      props_loop_raw m (i + 1) rest st'
  end.

Definition resolve_raw (g : grouping) (rows : list (list value)) : result resolution :=
  st ← props_loop_raw (specimensByWikidataId g) 0 rows
        {| r_heap := g_heap g; categoryNames := []; cursor := 0;
           commonsQueries := [] |};
  chunk ← go_slice_from (categoryNames st) (cursor st);
  Ok {| r_heap := r_heap st; categoryNames := categoryNames st;
        cursor := cursor st;
        commonsQueries := commonsQueries st ++ [chunk] |}.
End Rows.
Arguments Float64 {float64}.
Arguments String_ {float64}.
Arguments Other {float64}.
Arguments read_row {float64}.
Arguments props_loop_raw {float64}.
Arguments resolve_raw {float64}.

(** * Vocabulary of the properties *)

(** What the loop over [result.Props] maintains between [categoryNames],
    [cursor] and the queries launched so far, [n] rows in. *)
Record batching_inv (n : nat) (st : resolution) : Prop := {
  bi_len : length (categoryNames st) = n;
  bi_cursor : cursor st = 50 * Z.of_nat (length (commonsQueries st));
  bi_concat : concat (commonsQueries st)
              = take (Z.to_nat (cursor st)) (categoryNames st);
  bi_full : Forall (fun c => length c = 50%nat) (commonsQueries st);
  bi_lo : (n = 0%nat -> cursor st = 0);
  bi_hi : (n <> 0%nat -> cursor st < Z.of_nat n <= cursor st + 50)
}.

(** The name a row contributes to [categoryNames]. *)
Definition row_name (r : wdqRow) : string := CATEGORY_NAMESPACE +:+ r.2.

(** ⌈n/50⌉, but 1 for [n = 0]. *)
Definition query_count (n : nat) : nat :=
  if decide (n = 0%nat) then 1%nat else ((n + 49) / 50)%nat.
Arguments query_count : simpl never.

(** The sizes of the queries launched for [n] rows of one name. *)
Definition query_sizes (n : nat) : result (list nat) :=
  st ← resolve grouping_init (replicate n (1, "Foo"%string));
  Ok (length <$> commonsQueries st).

(** The heap after one row: the names of the row's group are set. *)
Definition resolve_heap (m : gmap string Slice.t) (h : Slice.heap) (row : wdqRow) : Slice.heap :=
  set_category (row_name row) (group_slice m (GoString.Itoa row.1)) h.

(** The header [s] fits its backing array in [h]. *)
Definition slice_ok (h : Slice.heap) (s : Slice.t) : Prop :=
  (Slice.len s <= length (default [] (h !! Slice.ptr s)))%nat /\
  (Slice.cap s <= length (default [] (h !! Slice.ptr s)))%nat.

(** The slices kept in the map point into the store, fit their arrays,
    and no two keys share an array. *)
Record groups_wf (h : Slice.heap) (m : gmap string Slice.t) : Prop := {
  wf_ptr : forall k s, m !! k = Some s -> (Slice.ptr s < length h)%nat;
  wf_ok : forall k s, m !! k = Some s -> slice_ok h s;
  wf_sep : forall k1 k2 s1 s2,
      m !! k1 = Some s1 -> m !! k2 = Some s2 ->
      Slice.ptr s1 = Slice.ptr s2 -> k1 = k2
}.

(** The map as the program reads it: key to list of specimens. *)
Definition groups (h : Slice.heap) (m : gmap string Slice.t) : gmap string (list specimen) :=
  Slice.view h <$> m.

(** The key [queryWdq] files a specimen under. *)
Definition group_key (s : specimen) : string :=
  GoString.TrimPrefix_Q (WikidataItemId s).

(** The specimens of all groups, group after group. *)
Definition all_members (h : Slice.heap) (m : gmap string Slice.t) : list specimen :=
  flat_map (fun e => Slice.view h e.2) (map_to_list m).

(** The category name the rows give to the group of key [k]: that of the
    last row whose item id prints as [k]. *)
Definition resolved_name (k : string) (rows : list wdqRow) : option string :=
  row_name <$> last (filter (fun r => GoString.Itoa r.1 = k) rows).

(** How many times [x] occurs in [l]. *)
Definition occurrences (x : string) (l : list string) : nat :=
  length (filter (fun y => y = x) l).

(** The pages of all the responses of one query. *)
Definition pages_of (rs : responses) : list page :=
  flat_map (default []) rs.

(** The sum, in Z, of the file counts the pages carry. *)
Definition sum_files (pages : list page) : Z :=
  foldr (fun p acc => default 0 (p_files p) + acc) 0 pages.

(** A count that leaves room for one addition in an [int]. *)
Definition small (z : Z) : Prop := 0 <= z < 2 ^ 62.

(** A page some categoryinfo query returns. *)
Definition reported (commons_categoryinfo : string -> responses) (p : page) : Prop :=
  exists titles, p ∈ pages_of (commons_categoryinfo titles).

(** Every report of one title carries the same subcategory count. *)
Definition consistent_subcats (commons_categoryinfo : string -> responses) : Prop :=
  forall p1 p2,
    reported commons_categoryinfo p1 -> reported commons_categoryinfo p2 ->
    p_title p1 = p_title p2 ->
    default 0 (p_subcats p1) = default 0 (p_subcats p2).

(** The entries of the index, as far as subcategories go. *)
Definition subcats_inv (commons_categoryinfo commons_subcats : string -> responses)
    (index : gmap string categoryInfo) : Prop :=
  forall k ci, index !! k = Some ci ->
    (0 < subCats ci ->
     queryCommonsSubcats commons_subcats k = Ok (subCatsFiles ci)) /\
    (subCats ci <= 0 -> subCatsFiles ci = 0) /\
    exists p, reported commons_categoryinfo p /\ p_title p = Some k /\
              default 0 (p_subcats p) = subCats ci.

(** The counts the service reports are non-negative and leave room: each
    file count of a category, and the sum of the file counts of the
    subcategories of one category, is below 2^62. *)
Record counts_sane (commons_categoryinfo commons_subcats : string -> responses)
    : Prop := {
  sane_files : forall p, reported commons_categoryinfo p -> small (default 0 (p_files p));
  sane_sub_nonneg : forall k p,
      p ∈ pages_of (commons_subcats k) -> 0 <= default 0 (p_files p);
  sane_sub_total : forall k, sum_files (pages_of (commons_subcats k)) < 2 ^ 62
}.

Definition counts_inv (index : gmap string categoryInfo) : Prop :=
  forall k ci, index !! k = Some ci -> small (files ci) /\ small (subCatsFiles ci).

(** ** A small run, for examples *)

Module Demo.

Definition growcap (c : nat) : nat := (2 * c + 1)%nat.

Definition foo : specimen := Specimen "Felis catus" "" "Q1" "" 0 0 0 0 " / " "" "".

(** The answer of WDQ: item 1 has category Foo. *)
Definition wdq_Get (q : string) : option wdqResponse :=
  Some (WdqResponse 200 (WdqResult "OK" [(1, "Foo"%string)])).

(** Commons: Category:Foo has 3 files and 1 subcategory, which has 2. *)
Definition commons_categoryinfo (titles : string) : responses :=
  [Some [Page (Some "Category:Foo"%string) (Some 3) (Some 1)]].
Definition commons_subcats (title : string) : responses :=
  [Some [Page (Some "Category:Foo by country"%string) (Some 2) (Some 0)]].

(** Commons reporting a negative file count. *)
Definition commons_negative (titles : string) : responses :=
  [Some [Page (Some "Category:Foo"%string) (Some (-1)) None]].

(** Commons reporting Category:Foo twice: with its counts in the first
    response, without any [categoryinfo] in the second. *)
Definition commons_twice (titles : string) : responses :=
  [Some [Page (Some "Category:Foo"%string) (Some 3) (Some 1)];
   Some [Page (Some "Category:Foo"%string) None None]].

Definition range_map (m : gmap string Slice.t) : list (string * Slice.t) :=
  map_to_list m.

(** An answer with two rows for item 1. *)
Definition rows_twice : list wdqRow := [(1, "Foo"); (1, "Bar")]%string.

(** An answer where items 1 and 2 have the same category. *)
Definition rows_shared : list wdqRow := [(1, "Foo"); (2, "Foo")]%string.

Definition two_taxa : list specimen :=
  [Specimen "Felis catus" "" "Q1" "" 0 0 0 0 " / " "" "";
   Specimen "Felis silvestris" "" "Q2" "" 0 0 0 0 " / " "" ""].

(** A catalog of three specimens, two of them of taxon Q1. *)
Definition catalog : list (list string) :=
  [["Felis catus"; "Chat"; "Monte"; "Adulte"; ""; ""; "MHNT.1"; "Q1"; "Cat 1"];
   ["Canis lupus"; "Loup"; "Peau"; "Juvenile"; ""; ""; "MHNT.2"; "Q2"; "Wolf"];
   ["Felis catus"; "Chat"; "Crane"; "Adulte"; ""; ""; "MHNT.3"; "Q1"; "Cat 2"]]%string.

(** A template that prints name and total of each specimen. *)
Definition Execute (t : unit) (l : list specimen) : string * option string :=
  (GoString.Join
     ((fun s => OriginalName s +:+ "=" +:+ GoString.Itoa (TotalFiles s)) <$> l) ";",
   None).

End Demo.

(** What [sort.Sort] asks of [Less]: a strict weak ordering. *)
Record less_ordering {A} (less : A -> A -> bool) : Prop := {
  less_irrefl : forall a, less a a = false;
  less_trans : forall a b c, less a b = true -> less b c = true -> less a c = true;
  less_neg_trans : forall a b c,
      less a b = false -> less b c = false -> less a c = false
}.

(** What [sort.Sort] leaves: no element sorts before an earlier one. *)
Definition ascending {A} (less : A -> A -> bool) (l : list A) : Prop :=
  forall i j a b, (i < j)%nat -> l !! i = Some a -> l !! j = Some b ->
                  less b a = false.

(** The contract of [sort.Sort]: the data rearranged, in ascending order
    as determined by [Less]. *)
Definition sort_contract
    (sort_Sort : (specimen -> specimen -> bool) -> list specimen -> list specimen)
    : Prop :=
  forall less l, less_ordering less ->
    sort_Sort less l ≡ₚ l /\ ascending less (sort_Sort less l).

Fixpoint insert_by {A} (less : A -> A -> bool) (x : A) (l : list A) : list A :=
  match l with
  | [] => [x]
  | y :: l' => if less x y then x :: l else y :: insert_by less x l'
  end.

Definition insertion_sort {A} (less : A -> A -> bool) (l : list A) : list A :=
  foldr (insert_by less) [] l.

(** The fields a specimen has from the catalog. *)
Definition catalog_fields (s : specimen)
    : string * string * string * string * string * string :=
  (OriginalName s, VernacularName s, WikidataItemId s, Treatment s,
   AccessionNumber s, SpecimenCategory s).

(** The pages returned, in order, to the queries of [queries]. *)
Definition reported_pages (commons_categoryinfo : string -> responses)
    (queries : list (list string)) : list page :=
  flat_map (fun names => pages_of (commons_categoryinfo (GoString.Join names "|")))
           queries.

(** Every response is an array of pages, and every page has a title. *)
Definition well_formed (rs : responses) : Prop :=
  Forall is_Some rs /\ Forall (fun p => is_Some (p_title p)) (pages_of rs).

(** A specimen once the answer [rows] has been gone through: its category
    name is that of the last row for its identifier, if there is one. *)
Definition resolve_specimen (rows : list wdqRow) (s : specimen) : specimen :=
  match resolved_name (group_key s) rows with
  | Some n => with_CommonsCategoryName n s
  | None => s
  end.

(** The [q] parameter sent to WDQ for the specimens read. *)
Definition wdq_query (specimens : list specimen) : string :=
  "ITEMS[" +:+ GoString.Join (group_key <$> specimens) "," +:+ "]".

(** Another order for [range], and another sort that meets the contract. *)
Definition range_map_backwards (m : gmap string Slice.t) : list (string * Slice.t) :=
  reverse (map_to_list m).

Definition insertion_sort_backwards {A} (less : A -> A -> bool) (l : list A) : list A :=
  insertion_sort less (reverse l).

(** A slice ordered by [less], as data given to [sort.Sort] is to
    behave: [Len] is the length, [Less] compares the two cells, [Swap]
    exchanges them, and an index out of range panics. *)
Definition exchange {A} (l : list A) (i j : Z) : result (list A) :=
  x ← index_at l i;
  y ← index_at l j;
  Ok (<[Z.to_nat i := y]> (<[Z.to_nat j := x]> l)).

Definition slice_interface {A} (less : A -> A -> bool) : Interface (list A) :=
  {| Len := fun l => Z.of_nat (length l);
     Less := fun l i j => x ← index_at l i; y ← index_at l j; Ok (less x y);
     Swap := exchange |}.

(** The contract of [sort.Sort], for the algorithm behind it: on a slice
    with a strict weak ordering it returns, the elements rearranged in
    ascending order. *)
Definition sort_algorithm_contract (algorithm : Z -> calls) : Prop :=
  forall (A : Type) (less : A -> A -> bool) (l : list A),
    less_ordering less ->
    exists l', sort_Sort_on algorithm (slice_interface less) l = Ok l' /\
               l' ≡ₚ l /\ ascending less l'.

(** The slice of specimens with the [Len] and [Swap] of [byOriginalName]
    and a [Less] that compares two cells with [less]: [byOriginalName]
    itself when [less] is [byOriginalName_Less]. *)
Definition specimens_by (less : specimen -> specimen -> bool)
    : Interface (list specimen) :=
  {| Len := byOriginalName_Len;
     Less := fun a i j => x ← index_at a i; y ← index_at a j; Ok (less x y);
     Swap := byOriginalName_Swap |}.

(** [sort.Sort] on that slice, as [updateWikiPage] is given it: the slice
    afterwards (left as it is should a method panic). *)
Definition sort_Sort_through (algorithm : Z -> calls)
    (less : specimen -> specimen -> bool) (a : list specimen) : list specimen :=
  match sort_Sort_on algorithm (specimens_by less) a with
  | Ok a' => a'
  | Fatal _ => a
  end.

(** The insertion sort of package sort, which [sort.Sort] uses on short
    slices:
    [for i := a + 1; i < b; i++ {
       for j := i; j > a && data.Less(j, j-1); j-- { data.Swap(j, j-1) } }]. *)
Fixpoint insertion_loop (j : nat) (next : calls) : calls :=
  match j with
  | O => next
  | S j' =>
      CallLess (Z.of_nat (S j')) (Z.of_nat j')
        (fun b => if b
                  then CallSwap (Z.of_nat (S j')) (Z.of_nat j') (insertion_loop j' next)
                  else next)
  end.

Fixpoint insertionSort_from (i rounds : nat) : calls :=
  match rounds with
  | O => Return
  | S rounds' => insertion_loop i (insertionSort_from (S i) rounds')
  end.

Definition insertionSort (n : Z) : calls :=
  insertionSort_from 1 (Z.to_nat n - 1).

(** [x] moved down a list kept in reverse, past the elements it sorts
    before; [sift] is the same on the list itself, [x] coming last. *)
Fixpoint sift_rev {A} (less : A -> A -> bool) (x : A) (r : list A) : list A :=
  match r with
  | [] => [x]
  | y :: r' => if less x y then y :: sift_rev less x r' else x :: r
  end.

Definition sift {A} (less : A -> A -> bool) (x : A) (pre : list A) : list A :=
  reverse (sift_rev less x (reverse pre)).

(** Commons returning a page without a title text, with 7 files. *)
Definition commons_untitled (titles : string) : responses :=
  [Some [Page (Some EmptyString) (Some 7) None]].

(** A specimen of a taxon for which WDQ has no category. *)
Definition unresolved_specimen : specimen :=
  Specimen "Canis lupus" "" "Q2" "" 0 0 0 0 " / " "" "".

(** Commons answering the request for Category:Foo alone with 4 files,
    and any other request with 3 files for Category:Foo. *)
Definition commons_by_request (titles : string) : responses :=
  if String.eqb titles "Category:Foo"
  then [Some [Page (Some "Category:Foo"%string) (Some 4) None]]
  else [Some [Page (Some "Category:Foo"%string) (Some 3) None]].

(** The specimens read from the catalog [Demo.catalog], and what the run
    sends on for them. *)
Definition catalog_specimens : list specimen :=
  [Specimen "Felis catus" "Chat" "Q1" "" 0 0 0 0 "Monte / Adulte" "MHNT.1" "Cat 1";
   Specimen "Canis lupus" "Loup" "Q2" "" 0 0 0 0 "Peau / Juvenile" "MHNT.2" "Wolf";
   Specimen "Felis catus" "Chat" "Q1" "" 0 0 0 0 "Crane / Adulte" "MHNT.3" "Cat 2"].


(** How many times the entry of [name] is assigned when each page of
    [pages] is stored. *)
Definition assignments (name : string) (pages : list page) : nat :=
  length (filter (fun p => p_title p = Some name) pages).

(** An answer of 51 rows, one for each of the items 1 to 51, where items
    1 and 51 have the same category Foo; and specimens of taxa 1 and 51. *)
Definition rows_51 : list wdqRow :=
  (1, "Foo"%string)
    :: ((fun i => (Z.of_nat i, "Bar"%string)) <$> seq 2 49) ++ [(51, "Foo"%string)].

Definition taxa_1_51 : list specimen :=
  [Specimen "Felis catus" "" "Q1" "" 0 0 0 0 " / " "" "";
   Specimen "Felis silvestris" "" "Q51" "" 0 0 0 0 " / " "" ""].

(** The rows read one after the other, up to the first that panics. *)
Fixpoint read_rows {float64} (int_of_float64 : float64 -> Z)
    (rows : list (list (value float64))) : result (list wdqRow) :=
  match rows with
  | [] => Ok []
  | itemProp :: rest =>
      row ← read_row int_of_float64 itemProp;
      rows' ← read_rows int_of_float64 rest;
      Ok (row :: rows')
  end.

(** A row with a number in its first cell and a string in its third. *)
Definition row_shape {float64} (itemProp : list (value float64)) : Prop :=
  exists f v s rest, itemProp = Float64 f :: v :: String_ s :: rest.

(** * Properties *)

(** ** Arithmetic of [int] *)

Lemma GoInt_wrap_small z : GoInt.in_range z -> GoInt.wrap z = z.
Proof.
  unfold GoInt.in_range, GoInt.wrap, GoInt.modulus, GoInt.half_modulus.
  intros H. rewrite Z.mod_small; lia.
Qed.

(** ** Batching *)

Lemma go_slice_ok {A} (l : list A) lo hi :
  0 <= lo <= hi -> hi <= Z.of_nat (length l) ->
  go_slice l lo hi = Ok (take (Z.to_nat (hi - lo)) (drop (Z.to_nat lo) l)).
Proof.
  intros [H1 H2] H3. unfold go_slice.
  rewrite (proj2 (Z.leb_le _ _) H1), (proj2 (Z.leb_le _ _) H2),
          (proj2 (Z.leb_le _ _) H3). done.
Qed.

Lemma props_step_batching m st itemProp n :
  batching_inv n st ->
  exists st', props_step m st (Z.of_nat n) itemProp = Ok st' /\
    categoryNames st' = categoryNames st ++ [CATEGORY_NAMESPACE +:+ itemProp.2] /\
    batching_inv (S n) st'.
Proof.
  intros [Hlen Hcur Hcat Hfull Hlo Hhi]. destruct itemProp as [itemId categoryName].
  unfold props_step.
  set (names := categoryNames st ++ [CATEGORY_NAMESPACE +:+ categoryName]).
  assert (Hnames : length names = S n) by (unfold names; rewrite length_app; simpl; lia).
  destruct ((0 <? Z.of_nat n) && (Z.rem (Z.of_nat n) 50 =? 0)) eqn:Hb.
  - apply andb_true_iff in Hb as [Hpos Hrem].
    apply Z.ltb_lt in Hpos. apply Z.eqb_eq in Hrem.
    rewrite Z.rem_mod_nonneg in Hrem by lia.
    assert (Hn : Z.of_nat n = cursor st + 50).
    { specialize (Hhi ltac:(lia)).
      apply Z.mod_divide in Hrem as [q Hq]; [|lia]. lia. }
    rewrite go_slice_ok by lia.
    eexists; split; [reflexivity|]. split; [done|].
    replace (Z.to_nat (Z.of_nat n - (Z.of_nat n - 50))) with 50%nat by lia.
    replace (Z.to_nat (Z.of_nat n - 50)) with (Z.to_nat (cursor st)) by lia.
    assert (Hchunk : length (take 50 (drop (Z.to_nat (cursor st)) names)) = 50%nat).
    { rewrite length_take, length_drop. lia. }
    constructor; simpl.
    + done.
    + rewrite length_app; simpl. lia.
    + rewrite concat_app; simpl. rewrite app_nil_r, Hcat.
      replace (take (Z.to_nat (cursor st)) (categoryNames st))
        with (take (Z.to_nat (cursor st)) names)
        by (unfold names; apply take_app_le; lia).
      rewrite take_take_drop. f_equal. lia.
    + apply Forall_app; split; [done|]. by constructor.
    + lia.
    + lia.
  - eexists; split; [reflexivity|]. split; [done|].
    constructor; simpl; try done.
    + rewrite Hcat. unfold names. rewrite take_app_le; [done|].
      destruct n; [rewrite Hlo by done; lia | specialize (Hhi ltac:(lia)); lia].
    + intros _. destruct n as [|n']; [rewrite Hlo by done; lia|].
      specialize (Hhi ltac:(lia)).
      apply andb_false_iff in Hb as [Hb|Hb]; [apply Z.ltb_ge in Hb; lia|].
      apply Z.eqb_neq in Hb. rewrite Z.rem_mod_nonneg in Hb by lia.
      assert (Z.of_nat (S n') <> cursor st + 50); [|lia].
      intros Heq. apply Hb. rewrite Heq, Hcur.
      replace (50 * Z.of_nat (length (commonsQueries st)) + 50)
        with ((Z.of_nat (length (commonsQueries st)) + 1) * 50) by lia.
      apply Z_mod_mult.
Qed.

Lemma props_loop_batching m rows : forall st n,
  batching_inv n st ->
  exists st', props_loop m (Z.of_nat n) rows st = Ok st' /\
    categoryNames st'
    = categoryNames st ++ ((fun r => CATEGORY_NAMESPACE +:+ r.2) <$> rows) /\
    batching_inv (n + length rows) st'.
Proof.
  induction rows as [|row rows IH]; intros st n Hinv; simpl.
  - exists st. rewrite app_nil_r, Nat.add_0_r. done.
  - destruct (props_step_batching m st row n Hinv) as (st1 & -> & Hn1 & Hinv1).
    simpl. replace (Z.of_nat n + 1) with (Z.of_nat (S n)) by lia.
    destruct (IH st1 (S n) Hinv1) as (st' & -> & Hn' & Hinv').
    exists st'. split; [done|]. split.
    + rewrite Hn', Hn1, <- app_assoc. done.
    + by replace (n + S (length rows))%nat with (S n + length rows)%nat by lia.
Qed.

Lemma batching_inv_init h : batching_inv 0 (Resolution h [] 0 []).
Proof. constructor; simpl; done. Qed.

Example query_sizes_0 : query_sizes 0 = Ok [0%nat].
Proof. reflexivity. Qed.
Example query_sizes_1 : query_sizes 1 = Ok [1%nat].
Proof. reflexivity. Qed.
Example query_sizes_49 : query_sizes 49 = Ok [49%nat].
Proof. vm_compute. reflexivity. Qed.
Example query_sizes_50 : query_sizes 50 = Ok [50%nat].
Proof. vm_compute. reflexivity. Qed.
Example query_sizes_51 : query_sizes 51 = Ok [50%nat; 1%nat].
Proof. vm_compute. reflexivity. Qed.
Example query_sizes_100 : query_sizes 100 = Ok [50%nat; 50%nat].
Proof. vm_compute. reflexivity. Qed.
Example query_sizes_101 : query_sizes 101 = Ok [50%nat; 50%nat; 1%nat].
Proof. vm_compute. reflexivity. Qed.

(** C1, as stated, at N = 0: the query made after the loop is launched
    whatever the number of names, so no name at all still gives one
    (empty) query, where ⌈0/50⌉ = 0. *)
Lemma C1_no_names_one_query :
  exists st, resolve grouping_init [] = Ok st /\
    commonsQueries st = [[]] /\
    length (commonsQueries st) <> ((length (@nil wdqRow) + 49) / 50)%nat.
Proof. eexists. split; [reflexivity|]. split; [reflexivity|]. simpl. lia. Qed.

Lemma props_step_heap m st i row st' :
  props_step m st i row = Ok st' -> r_heap st' = resolve_heap m (r_heap st) row.
Proof.
  destruct row as [itemId categoryName]. unfold props_step, resolve_heap, row_name.
  destruct ((0 <? i) && (Z.rem i 50 =? 0)).
  - destruct (go_slice _ _ _); simpl; [|done]. by intros [= <-].
  - by intros [= <-].
Qed.

Lemma props_loop_heap m rows : forall i st st',
  props_loop m i rows st = Ok st' ->
  r_heap st' = foldl (resolve_heap m) (r_heap st) rows.
Proof.
  induction rows as [|row rows IH]; intros i st st'; simpl.
  - by intros [= <-].
  - destruct (props_step m st i row) as [st1|] eqn:Hstep; simpl; [|done].
    intros Hloop. rewrite (IH _ _ _ Hloop). f_equal. by eapply props_step_heap.
Qed.

(** The second loop and the last query never panic; what they leave in
    [categoryNames], [commonsQueries] and the store. *)
Lemma resolve_spec (g : grouping) (rows : list wdqRow) :
  exists st, resolve g rows = Ok st /\
    categoryNames st = row_name <$> rows /\
    concat (commonsQueries st) = categoryNames st /\
    Forall (fun c => (length c <= 50)%nat) (commonsQueries st) /\
    length (commonsQueries st) = query_count (length rows) /\
    r_heap st = foldl (resolve_heap (specimensByWikidataId g)) (g_heap g) rows.
Proof.
  unfold resolve.
  destruct (props_loop_batching (specimensByWikidataId g) rows _ 0%nat
              (batching_inv_init (g_heap g)))
    as (st & Hloop & Hnames & [Hlen Hcur Hcat Hfull Hlo Hhi]).
  change (Z.of_nat 0) with 0 in Hloop.
  pose proof (props_loop_heap _ _ _ _ _ Hloop) as Hheap. simpl in Hheap.
  simpl in Hnames, Hlen, Hlo, Hhi. rewrite Hloop. simpl.
  assert (Hc : 0 <= cursor st <= Z.of_nat (length (categoryNames st))).
  { destruct (length rows) as [|n] eqn:Hn; [rewrite Hlo by done; lia|].
    specialize (Hhi ltac:(lia)). lia. }
  unfold go_slice_from. rewrite go_slice_ok by lia. simpl.
  eexists; split; [reflexivity|]. cbn [commonsQueries categoryNames r_heap].
  split; [done|].
  rewrite take_ge by (rewrite length_drop; lia).
  split; [|split; [|split; [|done]]].
  - rewrite concat_app; simpl. rewrite app_nil_r, Hcat. apply take_drop.
  - apply Forall_app; split.
    + eapply Forall_impl; [exact Hfull|]. simpl. intros; lia.
    + constructor; [|constructor]. rewrite length_drop.
      destruct (length rows) as [|n] eqn:Hn; [lia|].
      specialize (Hhi ltac:(lia)). lia.
  - rewrite length_app. cbn [length]. unfold query_count.
    case_decide as Hn.
    + rewrite Hn in Hlo. specialize (Hlo eq_refl). lia.
    + specialize (Hhi Hn).
      set (k := length (commonsQueries st)) in *.
      apply Nat.div_unique with (r := (length rows + 49 - 50 * (k + 1))%nat); lia.
Qed.

(** C1 (amended): for the N rows of the WDQ answer, the loop never
    panics; the queries launched, taken in launch order, concatenate to
    the N category names in order (each name sent once per row, none
    dropped); each query has at most 50 names; and there are ⌈N/50⌉
    queries when N ≥ 1, one (empty) query when N = 0. *)
Theorem C1_batch_completeness (g : grouping) (rows : list wdqRow) :
  exists st, resolve g rows = Ok st /\
    categoryNames st = row_name <$> rows /\
    concat (commonsQueries st) = categoryNames st /\
    Forall (fun c => (length c <= 50)%nat) (commonsQueries st) /\
    length (commonsQueries st) = query_count (length rows).
Proof.
  destruct (resolve_spec g rows) as (st & H1 & H2 & H3 & H4 & H5 & _).
  by exists st.
Qed.

(** ** Slices and the store *)

Lemma slice_ok_nil h : slice_ok h Slice.nil.
Proof. split; simpl; lia. Qed.

Lemma view_ext h h' s :
  h' !! Slice.ptr s = h !! Slice.ptr s -> Slice.view h' s = Slice.view h s.
Proof. unfold Slice.view. by intros ->. Qed.

Lemma slice_ok_ext h h' s :
  h' !! Slice.ptr s = h !! Slice.ptr s -> slice_ok h s -> slice_ok h' s.
Proof. unfold slice_ok. by intros ->. Qed.

Lemma length_view h s : slice_ok h s -> length (Slice.view h s) = Slice.len s.
Proof. intros [Hl _]. unfold Slice.view. rewrite length_take. lia. Qed.

Section AppendFacts.
Variable growcap : nat -> nat.

(** [append] adds [x] at the end of what the slice shows, and leaves
    every other array of the store as it was. *)
Lemma append_spec h s x :
  slice_ok h s ->
  exists h' s', Slice.append growcap h s x = (h', s') /\
    Slice.view h' s' = Slice.view h s ++ [x] /\
    slice_ok h' s' /\
    (Slice.ptr s' < length h')%nat /\
    (length h <= length h')%nat /\
    (((Slice.len s < Slice.cap s)%nat /\ Slice.ptr s' = Slice.ptr s /\
      (Slice.ptr s < length h)%nat)
     \/ Slice.ptr s' = length h) /\
    (forall p, (p < length h)%nat ->
               ((Slice.len s < Slice.cap s)%nat -> p <> Slice.ptr s) ->
               h' !! p = h !! p).
Proof.
  intros [Hlen Hcap]. unfold Slice.append.
  destruct (Slice.len s <? Slice.cap s)%nat eqn:Hroom.
  - apply Nat.ltb_lt in Hroom.
    destruct (h !! Slice.ptr s) as [arr|] eqn:Harr; simpl in Hlen, Hcap; [|lia].
    eexists _, _. split; [reflexivity|].
    assert (Hnew : alter (fun arr => <[Slice.len s := x]> arr) (Slice.ptr s) h
                     !! Slice.ptr s = Some (<[Slice.len s := x]> arr)).
    { rewrite list_lookup_alter_eq, Harr. done. }
    repeat split.
    + unfold Slice.view; simpl. rewrite Hnew, Harr; simpl.
      rewrite (take_S_r _ _ x) by (apply list_lookup_insert_eq; lia).
      rewrite take_insert_ge by lia. done.
    + simpl. rewrite Hnew; simpl. rewrite length_insert. lia.
    + simpl. rewrite Hnew; simpl. rewrite length_insert. lia.
    + simpl. rewrite length_alter. by eapply lookup_lt_Some.
    + rewrite length_alter. lia.
    + left. repeat split; [done|]. by eapply lookup_lt_Some.
    + intros p _ Hp. apply list_lookup_alter_ne. specialize (Hp Hroom). congruence.
  - apply Nat.ltb_ge in Hroom.
    eexists _, _. split; [reflexivity|].
    set (arr' := Slice.view h s ++
           x :: replicate (growcap (Slice.cap s) - S (Slice.len s)) specimen_zero).
    assert (Hv : length (Slice.view h s) = Slice.len s)
      by (apply length_view; split; lia).
    assert (Hnew : (h ++ [arr']) !! length h = Some arr')
      by (apply list_lookup_middle; done).
    assert (Hlarr : length arr' = (S (Slice.len s)
              + (growcap (Slice.cap s) - S (Slice.len s)))%nat).
    { unfold arr'. rewrite length_app; simpl. rewrite length_replicate. lia. }
    repeat split.
    + unfold Slice.view at 1; simpl. rewrite Hnew; simpl.
      unfold arr'. rewrite (cons_middle x), app_assoc.
      apply take_app_length'. rewrite length_app; simpl. lia.
    + simpl. rewrite Hnew; simpl. lia.
    + simpl. rewrite Hnew; simpl. lia.
    + simpl. rewrite length_app; simpl. lia.
    + rewrite length_app; simpl. lia.
    + by right.
    + intros p Hp _. by apply lookup_app_l.
Qed.
End AppendFacts.

(** ** Grouping *)

Lemma groups_lookup h m k :
  default [] (groups h m !! k) = Slice.view h (group_slice m k).
Proof.
  unfold groups, group_slice. rewrite lookup_fmap.
  by destruct (m !! k).
Qed.

Section GroupingFacts.
Variable growcap : nat -> nat.

(** One turn of the first loop, seen on the lists the map stands for. *)
Lemma group_step_spec g x :
  groups_wf (g_heap g) (specimensByWikidataId g) ->
  let g' := group_step growcap g x in
  groups_wf (g_heap g') (specimensByWikidataId g') /\
  groups (g_heap g') (specimensByWikidataId g')
  = <[group_key x :=
        default [] (groups (g_heap g) (specimensByWikidataId g) !! group_key x)
        ++ [x]]>
      (groups (g_heap g) (specimensByWikidataId g)) /\
  wikidataIds g' = wikidataIds g ++ [group_key x].
Proof.
  intros [Hptr Hok Hsep]. destruct g as [h m ids]; simpl in *.
  unfold group_step; simpl. fold (group_key x).
  set (k := group_key x). set (s := group_slice m k).
  assert (Hs : slice_ok h s).
  { unfold s, group_slice. destruct (m !! k) eqn:Hk; simpl; eauto using slice_ok_nil. }
  assert (Hstored : (Slice.len s < Slice.cap s)%nat -> m !! k = Some s).
  { unfold s, group_slice. destruct (m !! k); simpl; [done|lia]. }
  destruct (append_spec growcap h s x Hs)
    as (h' & s' & -> & Hview & Hok' & Hptr' & Hlen & Hwhere & Hframe).
  simpl.
  (* every other slice of the map still sees its own array *)
  assert (Hother : forall j t, j <> k -> m !! j = Some t ->
                               h' !! Slice.ptr t = h !! Slice.ptr t).
  { intros j t Hj Ht. apply Hframe; [by eapply Hptr|].
    intros Hroom Heq. apply Hj.
    eapply Hsep; [exact Ht|exact (Hstored Hroom)|done]. }
  split; [|split; [|done]].
  - constructor.
    + intros j t. rewrite lookup_insert. case_decide as Hj.
      * intros [= <-]. done.
      * intros Ht. specialize (Hptr _ _ Ht). lia.
    + intros j t. rewrite lookup_insert. case_decide as Hj.
      * intros [= <-]. done.
      * intros Ht. eapply slice_ok_ext; [by eapply Hother|]. by eapply Hok.
    + assert (Hfresh : forall j t, j <> k -> m !! j = Some t ->
                                   Slice.ptr s' <> Slice.ptr t).
      { intros j t Hj Ht Heq.
        destruct Hwhere as [(Hroom & Hp & _)|Hp].
        - apply Hj. eapply Hsep; [exact Ht|exact (Hstored Hroom)|congruence].
        - specialize (Hptr _ _ Ht). lia. }
      intros k1 k2 s1 s2. rewrite !lookup_insert.
      repeat case_decide; subst.
      * done.
      * intros [= <-] H2 Heq. exfalso. by eapply Hfresh.
      * intros H1 [= <-] Heq. exfalso. by eapply Hfresh.
      * eauto.
  - unfold groups. rewrite fmap_insert. apply map_eq. intros j.
    rewrite !lookup_insert. case_decide as Hj.
    + rewrite Hview. do 2 f_equal. symmetry. apply (groups_lookup h m k).
    + rewrite !lookup_fmap. destruct (m !! j) as [t|] eqn:Ht; simpl; [|done].
      f_equal. apply view_ext. by eapply Hother.
Qed.

Lemma groups_wf_init : groups_wf [] ∅.
Proof. constructor; intros *; rewrite ?lookup_empty; done. Qed.

(** After the first loop the map is well formed, and the group of each
    key is the specimens of that key, in catalog order. *)
Lemma group_specimens_spec specimens :
  let g := group_specimens growcap specimens in
  groups_wf (g_heap g) (specimensByWikidataId g) /\
  (forall k, default [] (groups (g_heap g) (specimensByWikidataId g) !! k)
             = filter (fun s => group_key s = k) specimens) /\
  wikidataIds g = group_key <$> specimens.
Proof.
  induction specimens as [|x l IH] using rev_ind.
  - simpl. split; [apply groups_wf_init|]. split; [|done].
    intros k. unfold groups. rewrite fmap_empty, lookup_empty. done.
  - unfold group_specimens in *. rewrite foldl_snoc.
    destruct IH as (Hwf & Hgroups & Hids).
    destruct (group_step_spec _ x Hwf) as (Hwf' & Hg' & Hids').
    split; [done|]. split.
    + intros k. rewrite Hg', lookup_insert, filter_app.
      case_decide as Hk.
      * simpl. rewrite Hgroups, Hk. f_equal.
        rewrite filter_cons_True by done. done.
      * rewrite Hgroups. rewrite filter_cons_False by done.
        rewrite filter_nil, app_nil_r. done.
    + rewrite Hids', Hids, fmap_app. done.
Qed.
End GroupingFacts.

Lemma group_specimens_snoc growcap l x :
  group_specimens growcap (l ++ [x])
  = group_step growcap (group_specimens growcap l) x.
Proof. unfold group_specimens. apply foldl_snoc. Qed.

Lemma flat_map_snd_insert_snoc {A} (G : gmap string (list A)) k x :
  flat_map snd (map_to_list (<[k := default [] (G !! k) ++ [x]]> G))
  ≡ₚ flat_map snd (map_to_list G) ++ [x].
Proof.
  destruct (G !! k) as [l|] eqn:Hk; simpl.
  - rewrite <- (insert_delete_eq G).
    rewrite map_to_list_insert by apply lookup_delete_eq.
    rewrite <- (map_to_list_delete G k l Hk). simpl.
    rewrite <- !app_assoc. apply Permutation_app_head, Permutation_app_comm.
  - rewrite map_to_list_insert by done. simpl.
    apply Permutation_cons_append.
Qed.

Lemma all_members_groups h m :
  all_members h m = flat_map snd (map_to_list (groups h m)).
Proof.
  unfold all_members, groups. rewrite map_to_list_fmap.
  induction (map_to_list m) as [|[k s] l IH]; simpl; [done|]. by rewrite IH.
Qed.

(** C7: grouping is a partition of the catalog.  The member lists of all
    the groups of [specimensByWikidataId], put together, are a permutation
    of the specimens read: each record is in exactly one group, exactly as
    many times as it was read; and the group of a key holds the records of
    that key in catalog order. *)
Theorem C7_grouping_partition (growcap : nat -> nat) (specimens : list specimen) :
  let g := group_specimens growcap specimens in
  all_members (g_heap g) (specimensByWikidataId g) ≡ₚ specimens /\
  forall k, group_members g k = filter (fun s => group_key s = k) specimens.
Proof.
  split.
  - rewrite all_members_groups.
    induction specimens as [|x l IH] using rev_ind; [done|].
    rewrite group_specimens_snoc.
    destruct (group_specimens_spec growcap l) as (Hwf & _ & _).
    destruct (group_step_spec growcap _ x Hwf) as (_ & -> & _).
    rewrite flat_map_snd_insert_snoc. by apply Permutation_app_tail.
  - intros k. unfold group_members. rewrite <- groups_lookup.
    apply (group_specimens_spec growcap specimens).
Qed.

Example grouping_two_keys :
  let g := group_specimens (fun c => (2 * c + 1)%nat)
             [Specimen "a" "" "Q1" "" 0 0 0 0 "" "" "";
              Specimen "b" "" "Q2" "" 0 0 0 0 "" "" "";
              Specimen "c" "" "Q1" "" 0 0 0 0 "" "" ""] in
  (OriginalName <$> group_members g "1", OriginalName <$> group_members g "2",
   wikidataIds g)
  = (["a"; "c"], ["b"], ["1"; "2"; "1"])%string.
Proof. vm_compute. reflexivity. Qed.

(** ** Resolution *)

Lemma alter_prefix {A} (f : A -> A) (arr : list A) : forall n,
  alter f n ((f <$> take n arr) ++ drop n arr)
  = (f <$> take (S n) arr) ++ drop (S n) arr.
Proof.
  induction arr as [|a arr IH]; intros [|n]; try done.
  simpl. f_equal. apply IH.
Qed.

(** The [range] loop that writes every element back through the copied
    header rewrites the first [len] cells of the one backing array. *)
Lemma set_cells_spec (f : specimen -> specimen) (s : Slice.t) (h : Slice.heap) n :
  foldl (fun h i => Slice.update f s i h) h (seq 0 n)
  = alter (fun arr => (f <$> take n arr) ++ drop n arr) (Slice.ptr s) h.
Proof.
  induction n as [|n IH].
  - simpl. symmetry. apply list_alter_id. intros arr. by rewrite drop_0.
  - rewrite seq_S, foldl_snoc, IH. simpl. unfold Slice.update.
    rewrite list_alter_alter_eq. apply list_alter_ext; [|done].
    intros arr _. apply alter_prefix.
Qed.

Lemma set_category_spec n k h m :
  groups_wf h m ->
  let h' := set_category n (group_slice m k) h in
  groups_wf h' m /\
  groups h' m = alter (fmap (with_CommonsCategoryName n)) k (groups h m).
Proof.
  intros [Hptr Hok Hsep]. unfold set_category. rewrite set_cells_spec.
  unfold group_slice. destruct (m !! k) as [s|] eqn:Hk; simpl.
  - set (F := fun arr : list specimen =>
                (with_CommonsCategoryName n <$> take (Slice.len s) arr)
                ++ drop (Slice.len s) arr).
    assert (HF : forall arr, length (F arr) = length arr).
    { intros arr. unfold F. rewrite length_app, length_fmap, length_take, length_drop. lia. }
    assert (Hother : forall j t, j <> k -> m !! j = Some t ->
              alter F (Slice.ptr s) h !! Slice.ptr t = h !! Slice.ptr t).
    { intros j t Hj Ht. apply list_lookup_alter_ne. intros Heq. apply Hj.
      symmetry. eapply Hsep; eauto. }
    assert (Hself : alter F (Slice.ptr s) h !! Slice.ptr s = F <$> h !! Slice.ptr s)
      by apply list_lookup_alter_eq.
    split.
    + constructor.
      * intros j t Ht. rewrite length_alter. eauto.
      * intros j t Ht. destruct (decide (j = k)) as [->|Hj].
        -- assert (t = s) as -> by congruence.
           destruct (Hok _ _ Hk) as [H1 H2]. unfold slice_ok. rewrite Hself.
           destruct (h !! Slice.ptr s) as [arr|]; simpl in *; [rewrite HF|]; done.
        -- eapply slice_ok_ext; [by eapply Hother|]. eauto.
      * done.
    + unfold groups. apply map_eq. intros j.
      rewrite lookup_alter, !lookup_fmap. case_decide as Hj.
      * subst j. rewrite Hk. simpl. f_equal.
        destruct (Hok _ _ Hk) as [H1 _].
        unfold Slice.view. rewrite Hself.
        destruct (h !! Slice.ptr s) as [arr|]; simpl in *.
        -- unfold F. rewrite take_app_le by (rewrite length_fmap, length_take; lia).
           rewrite take_ge by (rewrite length_fmap, length_take; lia). done.
        -- by rewrite !take_nil.
      * destruct (m !! j) as [t|] eqn:Ht; simpl; [|done].
        f_equal. apply view_ext. by eapply Hother.
  - rewrite list_alter_id by (intros arr; by rewrite drop_0).
    split; [done|]. unfold groups. apply map_eq. intros j.
    rewrite lookup_alter, !lookup_fmap. case_decide; subst; by rewrite ?Hk.
Qed.

(** All the rows, seen on the lists the map stands for. *)
Lemma resolve_heap_spec m rows : forall h,
  groups_wf h m ->
  let h' := foldl (resolve_heap m) h rows in
  groups_wf h' m /\
  forall k, default [] (groups h' m !! k)
            = match resolved_name k rows with
              | Some n => with_CommonsCategoryName n <$> default [] (groups h m !! k)
              | None => default [] (groups h m !! k)
              end.
Proof.
  induction rows as [|row rows IH] using rev_ind; intros h Hwf.
  - simpl. split; done.
  - rewrite foldl_snoc. destruct (IH h Hwf) as (Hwf1 & Hg1).
    destruct (set_category_spec (row_name row) (GoString.Itoa row.1) _ _ Hwf1)
      as (Hwf2 & Hg2).
    split; [exact Hwf2|]. intros k. unfold resolve_heap at 1. rewrite Hg2.
    unfold resolved_name. rewrite filter_app, lookup_alter.
    case_decide as Hk.
    + rewrite filter_cons_True by done. rewrite filter_nil, last_snoc. simpl.
      subst k.
      destruct (groups (foldl (resolve_heap m) h rows) m !! GoString.Itoa row.1)
        as [l|] eqn:Hl; simpl.
      * specialize (Hg1 (GoString.Itoa row.1)). rewrite Hl in Hg1. simpl in Hg1.
        rewrite Hg1. unfold resolved_name.
        destruct (last _); simpl; [|done].
        rewrite <- list_fmap_compose. done.
      * specialize (Hg1 (GoString.Itoa row.1)). rewrite Hl in Hg1. simpl in Hg1.
        unfold resolved_name in Hg1.
        destruct (last _); simpl in Hg1.
        -- symmetry in Hg1. apply fmap_nil_inv in Hg1. by rewrite Hg1.
        -- by rewrite <- Hg1.
    + rewrite filter_cons_False by done. rewrite filter_nil, app_nil_r.
      apply Hg1.
Qed.

Example resolved_name_last :
  resolved_name "1" [(1, "Foo"); (2, "Baz"); (1, "Bar")]%string = Some "Category:Bar"%string
  /\ resolved_name "3" [(1, "Foo"); (2, "Baz"); (1, "Bar")]%string = None.
Proof. split; reflexivity. Qed.

(** C5, as stated, on an answer with two rows for one item: the group of
    item 1 ends with the name of the second row, so the pair (1, Foo) of
    the answer is not the name its records carry. *)
Lemma C5_two_rows_last_wins :
  exists st,
    resolve (group_specimens Demo.growcap [Demo.foo]) Demo.rows_twice = Ok st /\
    CommonsCategoryName
      <$> Slice.view (r_heap st)
            (group_slice
               (specimensByWikidataId (group_specimens Demo.growcap [Demo.foo]))
               (GoString.Itoa 1))
    = ["Category:Bar"%string] /\
    ~ (forall r s, r ∈ Demo.rows_twice ->
         s ∈ Slice.view (r_heap st)
               (group_slice
                  (specimensByWikidataId (group_specimens Demo.growcap [Demo.foo]))
                  (GoString.Itoa r.1)) ->
         CommonsCategoryName s = row_name r).
Proof.
  eexists. split; [vm_compute; reflexivity|]. split; [vm_compute; reflexivity|].
  intros H.
  specialize (H (1, "Foo"%string)
                (with_CommonsCategoryName "Category:Bar" Demo.foo)).
  assert (Hne : CommonsCategoryName (with_CommonsCategoryName "Category:Bar" Demo.foo)
                <> row_name (1, "Foo"%string)) by (vm_compute; discriminate).
  apply Hne, H.
  - apply list_elem_of_here.
  - vm_compute. apply list_elem_of_here.
Qed.

Lemma readCsvFile_empty_names catalog : forall specimens,
  readCsvFile catalog = Ok specimens ->
  Forall (fun s => CommonsCategoryName s = EmptyString) specimens.
Proof.
  induction catalog as [|record catalog IH]; intros specimens; simpl.
  - intros [= <-]. constructor.
  - destruct (length record =? 9)%nat; [|done].
    destruct (readCsvFile catalog) as [tl|]; simpl; [|done].
    intros [= <-]. constructor; [done|]. by apply IH.
Qed.

(** C5 (amended): the loop over the answer never panics, and results are
    indexed by identifier: after it, the group of each key [k] is the
    catalog's records of that key, every one of them carrying "Category:"
    followed by the category name of the last row whose item id is [k];
    a group no row names is left as read, its records keeping the empty
    category name the catalog reader gave them. *)
Theorem C5_resolution_by_identifier (growcap : nat -> nat)
    (catalog : list (list string)) (specimens : list specimen)
    (rows : list wdqRow) :
  readCsvFile catalog = Ok specimens ->
  let g := group_specimens growcap specimens in
  exists st, resolve g rows = Ok st /\
    forall k,
      let members :=
        Slice.view (r_heap st) (group_slice (specimensByWikidataId g) k) in
      match resolved_name k rows with
      | Some n =>
          members = with_CommonsCategoryName n
                      <$> filter (fun s => group_key s = k) specimens /\
          Forall (fun s => CommonsCategoryName s = n) members
      | None =>
          members = filter (fun s => group_key s = k) specimens /\
          Forall (fun s => CommonsCategoryName s = EmptyString) members
      end.
Proof.
  intros Hread g.
  destruct (resolve_spec g rows) as (st & Hres & _ & _ & _ & _ & Hheap).
  exists st. split; [done|]. intros k members.
  destruct (group_specimens_spec growcap specimens) as (Hwf & Hgroups & _).
  fold g in Hwf, Hgroups.
  destruct (resolve_heap_spec (specimensByWikidataId g) rows _ Hwf) as (_ & Hafter).
  assert (Hmembers :
    members = match resolved_name k rows with
              | Some n => with_CommonsCategoryName n
                            <$> filter (fun s => group_key s = k) specimens
              | None => filter (fun s => group_key s = k) specimens
              end).
  { unfold members. rewrite <- groups_lookup, Hheap, Hafter, Hgroups. done. }
  destruct (resolved_name k rows) as [n|]; split; try done; rewrite Hmembers.
  - apply Forall_fmap, Forall_forall. done.
  - apply Forall_forall. intros s Hs. apply list_elem_of_filter in Hs as [_ Hs].
    by apply (proj1 (Forall_forall _ _) (readCsvFile_empty_names _ _ Hread)).
Qed.

Lemma C5_resolution_by_identifier_witness :
  let catalog :=
    [["Felis catus"; "Chat"; "Monte"; "Adulte"; ""; ""; "MHNT.1"; "Q1"; "Cat"];
     ["Canis lupus"; "Loup"; "Peau"; "Juvenile"; ""; ""; "MHNT.2"; "Q2"; "Wolf"]]%string in
  let specimens :=
    [Specimen "Felis catus" "Chat" "Q1" "" 0 0 0 0 "Monte / Adulte" "MHNT.1" "Cat";
     Specimen "Canis lupus" "Loup" "Q2" "" 0 0 0 0 "Peau / Juvenile" "MHNT.2" "Wolf"]%string in
  let rows := [(1, "Foo"%string)] in
  let g := group_specimens Demo.growcap specimens in
  exists st, resolve g rows = Ok st /\
    forall k,
      let members :=
        Slice.view (r_heap st) (group_slice (specimensByWikidataId g) k) in
      match resolved_name k rows with
      | Some n =>
          members = with_CommonsCategoryName n
                      <$> filter (fun s => group_key s = k) specimens /\
          Forall (fun s => CommonsCategoryName s = n) members
      | None =>
          members = filter (fun s => group_key s = k) specimens /\
          Forall (fun s => CommonsCategoryName s = EmptyString) members
      end.
Proof.
  intros catalog specimens rows.
  apply (C5_resolution_by_identifier Demo.growcap catalog specimens rows).
  vm_compute. reflexivity.
Defined.

(** ** Names queried *)

Lemma occurrences_fmap {A} (f : A -> string) x (l : list A) :
  occurrences x (f <$> l) = length (filter (fun a => f a = x) l).
Proof.
  unfold occurrences. induction l as [|a l IH]; [done|].
  rewrite fmap_cons, !filter_cons.
  destruct (decide (f a = x)); cbn [length]; by rewrite IH.
Qed.

(** ** The index built by queryCommons *)

Lemma fold_result_inv {A B} (P : B -> Prop) (f : B -> A -> result B) l :
  (forall b a b', a ∈ l -> P b -> f b a = Ok b' -> P b') ->
  forall b b', P b -> fold_result f b l = Ok b' -> P b'.
Proof.
  induction l as [|a l IH]; intros Hstep b b' Hb; simpl.
  - by intros [= <-].
  - destruct (f b a) as [b1|] eqn:Hf; simpl; [|done].
    apply IH; [|by eapply Hstep; [apply list_elem_of_here| |]].
    intros b0 a0 b0' Ha0. apply Hstep. by apply list_elem_of_further.
Qed.

Lemma count_files_exact pages : forall acc,
  0 <= acc ->
  Forall (fun p => 0 <= default 0 (p_files p)) pages ->
  acc + sum_files pages < 2 ^ 63 ->
  foldl count_files acc pages = acc + sum_files pages.
Proof.
  induction pages as [|p pages IH]; intros acc Hacc Hpos Hsum; simpl in *; [lia|].
  inversion Hpos as [|? ? Hp Hrest]; subst.
  assert (Hnn : 0 <= sum_files pages).
  { clear -Hrest. induction Hrest; simpl; lia. }
  unfold count_files at 2. destruct (p_files p) as [f|]; simpl in *.
  - unfold GoInt.add. rewrite GoInt_wrap_small.
    + rewrite IH; [lia|lia|done|lia].
    + unfold GoInt.in_range, GoInt.half_modulus. lia.
  - rewrite IH; [lia|lia|done|lia].
Qed.

Lemma fold_check_pages {B} (f : B -> list page -> result B) (rs : responses) : forall b b',
  fold_result (fun b resp => pages ← check resp; f b pages) b rs = Ok b' ->
  exists pagess, rs = Some <$> pagess /\ fold_result f b pagess = Ok b'.
Proof.
  induction rs as [|r rs IH]; intros b b'; simpl.
  - intros H. exists []. done.
  - destruct r as [pages|]; simpl; [|done].
    destruct (f b pages) as [b1|] eqn:Hf; simpl; [|done].
    intros H. destruct (IH _ _ H) as (pagess & -> & Hfold).
    exists (pages :: pagess). simpl. by rewrite Hf.
Qed.

Lemma pages_of_Some pagess : pages_of (Some <$> pagess) = concat pagess.
Proof.
  unfold pages_of. induction pagess as [|pages pagess IH]; [done|].
  rewrite fmap_cons. simpl. f_equal. exact IH.
Qed.

Lemma fold_count_files pagess : forall acc,
  fold_result (fun t pages => Ok (foldl count_files t pages)) acc pagess
  = Ok (foldl count_files acc (concat pagess)).
Proof.
  induction pagess as [|pages pagess IH]; intros acc; simpl; [done|].
  by rewrite IH, foldl_app.
Qed.

Section CommonsFacts.
Variable commons_categoryinfo : string -> responses.
Variable commons_subcats : string -> responses.

Local Abbreviation subcatsFilesOf := (queryCommonsSubcats commons_subcats).
Local Abbreviation storePage := (store_page commons_subcats).
Local Abbreviation fetchAll := (fetch commons_categoryinfo commons_subcats).
Local Abbreviation reported := (reported commons_categoryinfo).
Local Abbreviation consistent_subcats := (consistent_subcats commons_categoryinfo).
Local Abbreviation subcats_inv := (subcats_inv commons_categoryinfo commons_subcats).
Local Abbreviation counts_sane := (counts_sane commons_categoryinfo commons_subcats).

(** [queryCommonsSubcats] makes the one generator query and adds up, in
    response order, the file counts of the pages it returns. *)
Lemma queryCommonsSubcats_spec categoryName total :
  subcatsFilesOf categoryName = Ok total ->
  exists pagess, commons_subcats categoryName = Some <$> pagess /\
    total = foldl count_files 0 (concat pagess).
Proof.
  unfold queryCommonsSubcats. intros H.
  apply (fold_check_pages (fun t pages => Ok (foldl count_files t pages))) in H
    as (pagess & Hrs & Hfold).
  exists pagess. split; [done|].
  rewrite fold_count_files in Hfold. congruence.
Qed.

Lemma store_page_spec index p index' :
  storePage index p = Ok index' ->
  exists title scf,
    p_title p = Some title /\
    index' = <[title := CategoryInfo (default 0 (p_files p))
                          (default 0 (p_subcats p)) scf]> index /\
    (if 0 <? default 0 (p_subcats p)
     then subcatsFilesOf title = Ok scf
     else scf = subCatsFiles (default categoryInfo_zero (index !! title))).
Proof.
  unfold store_page. destruct (p_title p) as [title|]; simpl; [|done].
  destruct (0 <? default 0 (p_subcats p)) eqn:Hpos.
  - destruct (queryCommonsSubcats commons_subcats title) as [scf|] eqn:Hq;
      simpl; [|done].
    intros [= <-]. by exists title, scf.
  - simpl. intros [= <-]. by eexists title, _.
Qed.

(** What holds of the empty map and is kept by the storing of every page
    the service returns holds of the index once all queries are done. *)
Lemma fetch_inv (P : gmap string categoryInfo -> Prop) :
  P ∅ ->
  (forall index p index',
     reported p -> P index -> storePage index p = Ok index' -> P index') ->
  forall queries index, fetchAll queries = Ok index -> P index.
Proof.
  intros Hempty Hstep queries index. unfold fetch.
  apply (fold_result_inv P); [|done].
  intros members names members' _ Hmembers. unfold queryCommons. intros Hq.
  apply (fold_check_pages (fold_result storePage)) in Hq as (pagess & Hrs & Hfold).
  revert Hfold. apply (fold_result_inv P); [|done].
  intros b pages b' Hpages Hb. apply (fold_result_inv P); [|done].
  intros b0 p b0' Hp. apply Hstep.
  exists (GoString.Join names "|"). rewrite Hrs, pages_of_Some.
  apply list_elem_of_In, in_concat. exists pages.
  split; by apply list_elem_of_In.
Qed.

Lemma store_page_subcats_inv index p index' :
  consistent_subcats -> reported p -> subcats_inv index ->
  storePage index p = Ok index' -> subcats_inv index'.
Proof.
  intros Hcons Hp Hinv Hstore.
  apply store_page_spec in Hstore as (title & scf & Htitle & -> & Hscf).
  intros k ci. rewrite lookup_insert. case_decide as Hk; [|by apply Hinv].
  subst k. intros [= <-]. simpl.
  destruct (0 <? default 0 (p_subcats p)) eqn:Hpos.
  - apply Z.ltb_lt in Hpos. split; [done|]. split; [lia|]. by exists p.
  - apply Z.ltb_ge in Hpos. split; [lia|]. split; [|by exists p].
    intros _. subst scf.
    destruct (index !! title) as [old|] eqn:Hold; simpl; [|done].
    destruct (Hinv _ _ Hold) as (_ & Hzero & p' & Hp' & Htitle' & Hsub').
    apply Hzero. rewrite <- Hsub'.
    rewrite (Hcons p' p Hp' Hp) by congruence. done.
Qed.

(** When every report of a title carries the same subcategory count, an
    entry with a positive [subCats] has the [subCatsFiles] that the one
    query on the direct subcategories of its category returns, and an
    entry without has 0. *)
Lemma subCatsFiles_when_reports_agree (queries : list (list string))
    (index : gmap string categoryInfo) (k : string) (ci : categoryInfo) :
  consistent_subcats ->
  fetchAll queries = Ok index ->
  index !! k = Some ci ->
  (0 < subCats ci ->
   exists pagess, commons_subcats k = Some <$> pagess /\
     subCatsFiles ci = foldl count_files 0 (concat pagess)) /\
  (subCats ci <= 0 -> subCatsFiles ci = 0).
Proof.
  intros Hcons Hfetch Hk.
  assert (Hinv : subcats_inv index).
  { revert Hfetch. apply fetch_inv.
    - intros k' ci'. by rewrite lookup_empty.
    - intros idx p idx' Hp Hidx. by apply store_page_subcats_inv. }
  destruct (Hinv _ _ Hk) as (Hpos & Hzero & _). split; [|done].
  intros Hsub. by apply queryCommonsSubcats_spec, Hpos.
Qed.

Lemma sum_files_nonneg pages :
  Forall (fun p => 0 <= default 0 (p_files p)) pages -> 0 <= sum_files pages.
Proof. induction 1; simpl; lia. Qed.

Lemma queryCommonsSubcats_small k total :
  counts_sane -> subcatsFilesOf k = Ok total -> small total.
Proof.
  intros [_ Hnn Htot] Hq.
  apply queryCommonsSubcats_spec in Hq as (pagess & Hrs & ->).
  specialize (Hnn k). specialize (Htot k).
  rewrite Hrs, pages_of_Some in Hnn, Htot.
  assert (Hall : Forall (fun p => 0 <= default 0 (p_files p)) (concat pagess))
    by (apply Forall_forall; exact Hnn).
  pose proof (sum_files_nonneg _ Hall).
  rewrite count_files_exact; [unfold small; lia|lia|done|lia].
Qed.

Lemma store_page_counts_inv index p index' :
  counts_sane -> reported p -> counts_inv index ->
  storePage index p = Ok index' -> counts_inv index'.
Proof.
  intros Hsane Hp Hinv Hstore.
  apply store_page_spec in Hstore as (title & scf & Htitle & -> & Hscf).
  intros k ci. rewrite lookup_insert. case_decide as Hk; [|by apply Hinv].
  subst k. intros [= <-]. simpl. split; [by apply (sane_files _ _ Hsane)|].
  destruct (0 <? default 0 (p_subcats p)).
  - by eapply queryCommonsSubcats_small.
  - subst scf. destruct (index !! title) as [old|] eqn:Hold; simpl.
    + by apply (Hinv _ _ Hold).
    + unfold small. lia.
Qed.

Lemma fetch_counts_inv queries index :
  counts_sane -> fetchAll queries = Ok index -> counts_inv index.
Proof.
  intros Hsane. apply fetch_inv.
  - intros k ci. by rewrite lookup_empty.
  - intros idx p idx' Hp Hidx. by apply store_page_counts_inv.
Qed.

(** The keys of the index are titles the service reported. *)
Lemma fetch_keys_reported queries index k :
  fetchAll queries = Ok index -> is_Some (index !! k) ->
  exists p, reported p /\ p_title p = Some k.
Proof.
  intros Hfetch. revert k.
  revert Hfetch. apply (fetch_inv (fun index =>
    forall k, is_Some (index !! k) -> exists p, reported p /\ p_title p = Some k)).
  - intros k [ci Hci]. by rewrite lookup_empty in Hci.
  - intros idx p idx' Hp Hidx Hstore k.
    apply store_page_spec in Hstore as (title & scf & Htitle & -> & _).
    rewrite lookup_insert. case_decide as Hk; [|by apply Hidx].
    subst k. intros _. by exists p.
Qed.

End CommonsFacts.

(** ** The index, page after page *)

Lemma fold_result_app {A B} (f : B -> A -> result B) b l1 l2 :
  fold_result f b (l1 ++ l2) = (b' ← fold_result f b l1; fold_result f b' l2).
Proof.
  revert b. induction l1 as [|a l1 IH]; intros b; simpl; [done|].
  destruct (f b a); simpl; auto.
Qed.

Lemma fold_result_concat {A B} (f : B -> A -> result B) (ls : list (list A)) : forall b,
  fold_result (fold_result f) b ls = fold_result f b (concat ls).
Proof.
  induction ls as [|l ls IH]; intros b; simpl; [done|].
  rewrite fold_result_app. destruct (fold_result f b l); simpl; auto.
Qed.

(** A query stores the pages of its responses one after the other. *)
Lemma queryCommons_flat commons_categoryinfo commons_subcats index names index' :
  queryCommons commons_categoryinfo commons_subcats index names = Ok index' ->
  fold_result (store_page commons_subcats) index
    (pages_of (commons_categoryinfo (GoString.Join names "|"))) = Ok index'.
Proof.
  unfold queryCommons. intros Hq.
  apply (fold_check_pages (fold_result (store_page commons_subcats))) in Hq
    as (pagess & -> & Hfold).
  by rewrite pages_of_Some, <- fold_result_concat.
Qed.

Lemma fetch_from_flat commons_categoryinfo commons_subcats queries : forall index index',
  fold_result (queryCommons commons_categoryinfo commons_subcats) index queries
  = Ok index' ->
  fold_result (store_page commons_subcats) index
    (reported_pages commons_categoryinfo queries) = Ok index'.
Proof.
  induction queries as [|names queries IH]; intros index index'; simpl; [done|].
  destruct (queryCommons _ _ index names) as [index1|] eqn:Hq; simpl; [|done].
  intros Hrest. unfold reported_pages. simpl. rewrite fold_result_app.
  rewrite (queryCommons_flat _ _ _ _ _ Hq). simpl. by apply IH.
Qed.

Lemma store_page_lookup commons_subcats index p index' k :
  store_page commons_subcats index p = Ok index' ->
  (p_title p <> Some k -> index' !! k = index !! k) /\
  (p_title p = Some k ->
   exists ci, index' !! k = Some ci /\
     files ci = default 0 (p_files p) /\ subCats ci = default 0 (p_subcats p)).
Proof.
  unfold store_page. destruct (p_title p) as [title|]; simpl; [|done].
  destruct (if 0 <? default 0 (p_subcats p)
            then queryCommonsSubcats commons_subcats title
            else Ok (subCatsFiles (default categoryInfo_zero (index !! title))))
    as [scf|]; simpl; [|done].
  intros [= <-]. split.
  - intros Hne. apply lookup_insert_ne. congruence.
  - intros [= ->]. eexists. rewrite lookup_insert_eq. done.
Qed.

Lemma store_pages_frame commons_subcats pages k : forall index index',
  fold_result (store_page commons_subcats) index pages = Ok index' ->
  Forall (fun p => p_title p <> Some k) pages ->
  index' !! k = index !! k.
Proof.
  induction pages as [|p pages IH]; intros index index'; simpl.
  - by intros [= <-].
  - destruct (store_page commons_subcats index p) as [index1|] eqn:Hstore; simpl; [|done].
    intros Hrest Hall. inversion Hall as [|? ? Hp Hpages]; subst.
    rewrite (IH _ _ Hrest Hpages).
    by apply (store_page_lookup _ _ _ _ k Hstore).
Qed.

Lemma store_pages_keys commons_subcats pages k : forall index index',
  fold_result (store_page commons_subcats) index pages = Ok index' ->
  (is_Some (index' !! k) <->
   is_Some (index !! k) \/ exists p, p ∈ pages /\ p_title p = Some k).
Proof.
  induction pages as [|p pages IH]; intros index index'; simpl.
  - intros [= <-]. split; [by left|]. intros [H|(p & Hp & _)]; [done|].
    by apply elem_of_nil in Hp.
  - destruct (store_page commons_subcats index p) as [index1|] eqn:Hstore; simpl; [|done].
    intros Hrest. rewrite (IH _ _ Hrest).
    destruct (store_page_lookup _ _ _ _ k Hstore) as [Hne Heq].
    destruct (decide (p_title p = Some k)) as [Hk|Hk].
    + destruct (Heq Hk) as (ci & Hci & _). split.
      * intros _. right. exists p. split; [apply list_elem_of_here|done].
      * intros _. left. by rewrite Hci.
    + rewrite (Hne Hk). split.
      * intros [H|(p' & Hp' & Ht)]; [by left|].
        right. exists p'. split; [by apply list_elem_of_further|done].
      * intros [H|(p' & Hp' & Ht)]; [by left|].
        apply elem_of_cons in Hp' as [->|Hp']; [done|]. right. by exists p'.
Qed.

(** ** Names queried, pages stored *)

Lemma assignments_pos name pages :
  (0 < assignments name pages)%nat <->
  exists p, p ∈ pages /\ p_title p = Some name.
Proof.
  unfold assignments. induction pages as [|p pages IH].
  - simpl. split; [lia|]. intros (p & Hp & _). by apply elem_of_nil in Hp.
  - rewrite filter_cons. destruct (decide (p_title p = Some name)) as [Hp|Hp].
    + simpl. split; [|lia]. intros _. exists p. split; [apply list_elem_of_here|done].
    + rewrite IH. split.
      * intros (p' & Hp' & Ht). exists p'. split; [by apply list_elem_of_further|done].
      * intros (p' & Hp' & Ht). apply elem_of_cons in Hp' as [->|Hp']; [done|].
        by exists p'.
Qed.

(** C2, as stated, on an answer of 51 rows where items 1 and 51 both have
    the category Foo: the name is in the groups of two taxa and goes out
    in two requests, the first with the names of rows 0 to 49, the second
    with that of row 50.  Commons answers each with a page for it, and
    each answer is stored: the entry is assigned twice, the later
    assignment replacing the earlier, whichever of the two queries comes
    first. *)
Lemma C2_shared_name_two_requests :
  exists st q0,
    resolve (group_specimens Demo.growcap taxa_1_51) rows_51 = Ok st /\
    (forall k, k ∈ ["1"; "51"]%string ->
       CommonsCategoryName
         <$> Slice.view (r_heap st)
               (group_slice
                  (specimensByWikidataId (group_specimens Demo.growcap taxa_1_51)) k)
       = ["Category:Foo"%string]) /\
    commonsQueries st = [q0; ["Category:Foo"%string]] /\
    occurrences "Category:Foo" q0 = 1%nat /\
    pages_of (commons_by_request (GoString.Join q0 "|"))
    = [Page (Some "Category:Foo"%string) (Some 3) None] /\
    pages_of (commons_by_request (GoString.Join ["Category:Foo"%string] "|"))
    = [Page (Some "Category:Foo"%string) (Some 4) None] /\
    queryCommons commons_by_request Demo.commons_subcats
      {[ "Category:Foo"%string := CategoryInfo 3 0 0 ]} ["Category:Foo"%string]
    = Ok {[ "Category:Foo"%string := CategoryInfo 4 0 0 ]} /\
    queryCommons commons_by_request Demo.commons_subcats
      {[ "Category:Foo"%string := CategoryInfo 4 0 0 ]} q0
    = Ok {[ "Category:Foo"%string := CategoryInfo 3 0 0 ]} /\
    assignments "Category:Foo" (reported_pages commons_by_request (commonsQueries st))
    = 2%nat /\
    length (commonsQueries st) <> 1%nat /\
    assignments "Category:Foo" (reported_pages commons_by_request (commonsQueries st))
    <> 1%nat.
Proof.
  eexists. eexists. split; [vm_compute; reflexivity|]. split.
  - intros k Hk. apply elem_of_cons in Hk as [->|Hk];
      [|apply list_elem_of_singleton in Hk as ->]; vm_compute; reflexivity.
  - split; [vm_compute; reflexivity|].
    repeat split; try (vm_compute; reflexivity); vm_compute; discriminate.
Qed.

(** C2 (amended): category names are not deduplicated.  A name is sent to
    the statistics service once for each row of the answer that reports
    it, in one request or in several, hence more than once when several
    taxa share it.  Each query stores every page of its answer, one
    after the other, assigning the entry of the page's title: the entry
    of a name is assigned once for each page returned for it, a later
    assignment replacing an earlier one.  When the queries complete, the
    index has an entry for a name exactly when at least one page was
    returned for it. *)
Theorem C2_queried_per_row_stored_per_page (g : grouping) (rows : list wdqRow)
    (commons_categoryinfo commons_subcats : string -> responses) :
  exists st, resolve g rows = Ok st /\
    (forall name,
       occurrences name (concat (commonsQueries st))
       = length (filter (fun r => row_name r = name) rows)) /\
    (forall names index index',
       names ∈ commonsQueries st ->
       queryCommons commons_categoryinfo commons_subcats index names = Ok index' ->
       fold_result (store_page commons_subcats) index
         (pages_of (commons_categoryinfo (GoString.Join names "|"))) = Ok index') /\
    (forall index,
       fetch commons_categoryinfo commons_subcats (commonsQueries st) = Ok index ->
       forall name,
         is_Some (index !! name) <->
         (0 < assignments name
                (reported_pages commons_categoryinfo (commonsQueries st)))%nat).
Proof.
  destruct (resolve_spec g rows) as (st & Hres & Hnames & Hcat & _).
  exists st. split; [done|]. split; [|split].
  - intros name. rewrite Hcat, Hnames. apply occurrences_fmap.
  - intros names index index' _. apply queryCommons_flat.
  - intros index Hfetch name.
    apply (fetch_from_flat commons_categoryinfo commons_subcats) in Hfetch.
    rewrite (store_pages_keys commons_subcats _ name _ _ Hfetch), lookup_empty.
    rewrite assignments_pos. split; [intros [[? [=]]|H]; done|by right].
Qed.

(** ** Merge *)

Lemma elem_of_merge h index entries r :
  r ∈ merge h index entries <->
  exists e s, e ∈ entries /\ s ∈ Slice.view h e.2 /\ r = merge_specimen index s.
Proof.
  unfold merge. rewrite list_elem_of_In, in_flat_map. split.
  - intros (e & He & Hr). apply list_elem_of_In, list_elem_of_fmap in Hr as (s & -> & Hs).
    exists e, s. by rewrite list_elem_of_In.
  - intros (e & s & He & Hs & ->). exists e. rewrite <- !list_elem_of_In.
    split; [done|]. by apply list_elem_of_fmap_2.
Qed.

Lemma merge_specimen_total index s :
  TotalFiles (merge_specimen index s)
  = GoInt.add (FileCount (merge_specimen index s))
              (SubCatsFileCounts (merge_specimen index s)).
Proof. reflexivity. Qed.

Lemma merge_specimen_sane index s :
  (forall k ci, index !! k = Some ci -> small (files ci) /\ small (subCatsFiles ci)) ->
  0 <= FileCount (merge_specimen index s) /\
  0 <= SubCatsFileCounts (merge_specimen index s) /\
  TotalFiles (merge_specimen index s)
  = FileCount (merge_specimen index s) + SubCatsFileCounts (merge_specimen index s).
Proof.
  intros Hinv. unfold merge_specimen; simpl.
  assert (Hs : small (files (default categoryInfo_zero (index !! CommonsCategoryName s)))
               /\ small (subCatsFiles
                           (default categoryInfo_zero (index !! CommonsCategoryName s)))).
  { destruct (index !! CommonsCategoryName s) as [ci|] eqn:Hci; simpl.
    - by eapply Hinv.
    - unfold small. lia. }
  destruct Hs as [[H1 H2] [H3 H4]]. split; [done|]. split; [done|].
  unfold GoInt.add. apply GoInt_wrap_small.
  unfold GoInt.in_range, GoInt.half_modulus. lia.
Qed.

(** C4 (amended): a specimen whose category name is not a key of the
    index gets zero-valued statistics from the merge loop (own files,
    subcategories, files of subcategories and total all 0); the loop has
    no error case, and the record is sent on like any other.  The empty
    name of an unresolved specimen is such a missing key provided Commons
    reported no page with an empty title: the keys of a completed index
    are the titles Commons reported. *)
Theorem C4_missing_key_zero_stats
    (commons_categoryinfo commons_subcats : string -> responses)
    (h : Slice.heap) (queries : list (list string))
    (index : gmap string categoryInfo)
    (entries : list (string * Slice.t)) (e : string * Slice.t) (s : specimen) :
  e ∈ entries -> s ∈ Slice.view h e.2 ->
  index !! CommonsCategoryName s = None
  \/ (CommonsCategoryName s = EmptyString /\
      fetch commons_categoryinfo commons_subcats queries = Ok index /\
      (forall p, reported commons_categoryinfo p -> p_title p <> Some EmptyString)) ->
  exists r, r ∈ merge h index entries /\
    r = merge_specimen index s /\
    FileCount r = 0 /\ SubCats r = 0 /\ SubCatsFileCounts r = 0 /\
    TotalFiles r = 0 /\
    r = {| OriginalName := OriginalName s; VernacularName := VernacularName s;
         WikidataItemId := WikidataItemId s;
         CommonsCategoryName := CommonsCategoryName s;
         FileCount := 0; SubCats := 0; SubCatsFileCounts := 0; TotalFiles := 0;
         Treatment := Treatment s; AccessionNumber := AccessionNumber s;
         SpecimenCategory := SpecimenCategory s |}.
Proof.
  intros He Hs Hmissing.
  assert (Hnone : index !! CommonsCategoryName s = None).
  { destruct Hmissing as [Hnone|(Hempty & Hfetch & Htitles)]; [done|].
    destruct (index !! CommonsCategoryName s) as [ci|] eqn:Hci; [|done].
    destruct (fetch_keys_reported _ _ _ _ _ Hfetch (mk_is_Some _ _ Hci))
      as (p & Hp & Htitle).
    rewrite Hempty in Htitle. by destruct (Htitles p Hp). }
  exists (merge_specimen index s). split.
  - apply elem_of_merge. by exists e, s.
  - unfold merge_specimen. rewrite Hnone. simpl. done.
Qed.

(** C3 (amended): for every merged record, the total file count is the
    record's own file count plus its aggregated subcategory file count,
    added as Go adds two [int]s; when the statistics service reports
    non-negative counts below 2^62, sums over subcategories included,
    both quantities are ≥ 0 and the total is their exact sum. *)
Theorem C3_total_consistency
    (commons_categoryinfo commons_subcats : string -> responses)
    (h : Slice.heap) (queries : list (list string))
    (index : gmap string categoryInfo)
    (entries : list (string * Slice.t)) (r : specimen) :
  fetch commons_categoryinfo commons_subcats queries = Ok index ->
  r ∈ merge h index entries ->
  TotalFiles r = GoInt.add (FileCount r) (SubCatsFileCounts r) /\
  (counts_sane commons_categoryinfo commons_subcats ->
   0 <= FileCount r /\ 0 <= SubCatsFileCounts r /\
   TotalFiles r = FileCount r + SubCatsFileCounts r).
Proof.
  intros Hfetch Hr. apply elem_of_merge in Hr as (e & s & _ & _ & ->).
  split; [apply merge_specimen_total|].
  intros Hsane. apply merge_specimen_sane.
  by eapply fetch_counts_inv.
Qed.

Example demo_updatedSpecimens :
  updatedSpecimens Demo.growcap Demo.wdq_Get Demo.commons_categoryinfo
    Demo.commons_subcats Demo.range_map [Demo.foo]
  = Ok [Specimen "Felis catus" "" "Q1" "Category:Foo" 3 1 2 5 " / " "" ""].
Proof. vm_compute. reflexivity. Qed.

(** The scenario of the specification: both Q1 rows get 5 files, the
    unresolved Q2 row gets 0, and the report lists them by name. *)
Example demo_queryWdq :
  (specimens ← readCsvFile Demo.catalog;
   queryWdq Demo.growcap Demo.wdq_Get Demo.commons_categoryinfo
     Demo.commons_subcats Demo.range_map "Projet:Collections" "2"
     insertion_sort unit (Some "tpl"%string) (fun _ => Some tt) Demo.Execute
     (fun _ => Some tt) specimens)
  = Ok {| e_title := "Projet:Collections"; e_section := "2";
          e_text := "Canis lupus=0;Felis catus=5;Felis catus=5";
          e_summary := "Mise à jour"; e_notminor := "" |}.
Proof. vm_compute. reflexivity. Qed.

Example demo_fetch :
  fetch Demo.commons_categoryinfo Demo.commons_subcats [["Category:Foo"%string]]
  = Ok {[ "Category:Foo"%string := CategoryInfo 3 1 2 ]}.
Proof. vm_compute. reflexivity. Qed.

Lemma demo_reported p :
  reported Demo.commons_categoryinfo p ->
  p = Page (Some "Category:Foo"%string) (Some 3) (Some 1).
Proof. intros [titles Hp]. by apply list_elem_of_singleton in Hp. Qed.

Lemma demo_counts_sane : counts_sane Demo.commons_categoryinfo Demo.commons_subcats.
Proof.
  constructor.
  - intros p Hp. rewrite (demo_reported p Hp). unfold small. simpl. lia.
  - intros k p Hp. apply list_elem_of_singleton in Hp as ->. simpl. lia.
  - intros k. simpl. lia.
Qed.

Lemma demo_consistent : consistent_subcats Demo.commons_categoryinfo.
Proof.
  intros p1 p2 H1 H2 _. by rewrite (demo_reported p1 H1), (demo_reported p2 H2).
Qed.

(** C3, as stated, when Commons reports -1 files for the category: the
    merged record has a negative own file count. *)
Lemma C3_negative_count_from_service :
  exists r,
    updatedSpecimens Demo.growcap Demo.wdq_Get Demo.commons_negative
      Demo.commons_subcats Demo.range_map [Demo.foo] = Ok [r] /\
    FileCount r = -1 /\ ~ 0 <= FileCount r.
Proof.
  eexists. split; [vm_compute; reflexivity|]. simpl. split; [done|lia].
Qed.

Lemma C3_total_consistency_witness :
  let r := Specimen "Felis catus" "" "Q1" "Category:Foo" 3 1 2 5 " / " "" "" in
  TotalFiles r = GoInt.add (FileCount r) (SubCatsFileCounts r) /\
  (counts_sane Demo.commons_categoryinfo Demo.commons_subcats ->
   0 <= FileCount r /\ 0 <= SubCatsFileCounts r /\
   TotalFiles r = FileCount r + SubCatsFileCounts r).
Proof.
  apply (C3_total_consistency Demo.commons_categoryinfo Demo.commons_subcats
           [[Specimen "Felis catus" "" "Q1" "Category:Foo" 0 0 0 0 " / " "" ""]]
           [["Category:Foo"%string]]
           {[ "Category:Foo"%string := CategoryInfo 3 1 2 ]}
           [("1"%string, Slice.Make 0 1 1)]).
  - vm_compute. reflexivity.
  - vm_compute. apply list_elem_of_here.
Defined.

(** C6, on an answer where Commons reports Category:Foo twice to one
    query: with 3 files and 1 subcategory in the first response (the query
    on the subcategories then gives 2 files), without [categoryinfo] in
    the second.  The second report sets [files] and [subCats] back to 0
    and leaves [subCatsFiles] as it is: the entry ends with no
    subcategory and 2 files of subcategories, and so does the specimen of
    that category. *)
Theorem C6_stale_subCatsFiles :
  pages_of (Demo.commons_twice "Category:Foo")
  = [Page (Some "Category:Foo"%string) (Some 3) (Some 1);
     Page (Some "Category:Foo"%string) None None] /\
  queryCommonsSubcats Demo.commons_subcats "Category:Foo" = Ok 2 /\
  store_page Demo.commons_subcats ∅ (Page (Some "Category:Foo"%string) (Some 3) (Some 1))
  = Ok {[ "Category:Foo"%string := CategoryInfo 3 1 2 ]} /\
  store_page Demo.commons_subcats {[ "Category:Foo"%string := CategoryInfo 3 1 2 ]}
    (Page (Some "Category:Foo"%string) None None)
  = Ok {[ "Category:Foo"%string := CategoryInfo 0 0 2 ]} /\
  updatedSpecimens Demo.growcap Demo.wdq_Get Demo.commons_twice
    Demo.commons_subcats Demo.range_map [Demo.foo]
  = Ok [Specimen "Felis catus" "" "Q1" "Category:Foo" 0 0 2 2 " / " "" ""] /\
  exists index ci,
    fetch Demo.commons_twice Demo.commons_subcats [["Category:Foo"%string]] = Ok index /\
    index !! "Category:Foo"%string = Some ci /\
    subCats ci = 0 /\ subCatsFiles ci = 2 /\
    ~ (subCats ci <= 0 -> subCatsFiles ci = 0).
Proof.
  do 5 (split; [vm_compute; reflexivity|]).
  exists {[ "Category:Foo"%string := CategoryInfo 0 0 2 ]}, (CategoryInfo 0 0 2).
  split; [vm_compute; reflexivity|]. split; [vm_compute; reflexivity|].
  simpl. split; [done|]. split; [done|]. intros H. specialize (H ltac:(lia)). lia.
Qed.

Example subCatsFiles_when_reports_agree_demo :
  let ci := CategoryInfo 3 1 2 in
  (0 < subCats ci ->
   exists pagess, Demo.commons_subcats "Category:Foo" = Some <$> pagess /\
     subCatsFiles ci = foldl count_files 0 (concat pagess)) /\
  (subCats ci <= 0 -> subCatsFiles ci = 0).
Proof.
  apply (subCatsFiles_when_reports_agree Demo.commons_categoryinfo
           Demo.commons_subcats [["Category:Foo"%string]]
           {[ "Category:Foo"%string := CategoryInfo 3 1 2 ]}).
  - exact demo_consistent.
  - vm_compute. reflexivity.
  - vm_compute. reflexivity.
Qed.

(** C4, as stated, when Commons returns a page with an empty title and
    7 files: the specimen Wikidata could not resolve, whose category name
    is empty, is given 7 files, not 0. *)
Lemma C4_empty_title_page :
  exists r,
    updatedSpecimens Demo.growcap Demo.wdq_Get commons_untitled
      Demo.commons_subcats Demo.range_map [unresolved_specimen] = Ok [r] /\
    CommonsCategoryName unresolved_specimen = EmptyString /\
    CommonsCategoryName r = EmptyString /\
    FileCount r = 7 /\ TotalFiles r = 7 /\ FileCount r <> 0.
Proof.
  eexists. split; [vm_compute; reflexivity|]. simpl.
  repeat split; done.
Qed.

Lemma C4_missing_key_zero_stats_witness :
  (let s := unresolved_specimen in
   exists r,
     r ∈ merge [[s]] {[ "Category:Foo"%string := CategoryInfo 3 1 2 ]}
           [("2"%string, Slice.Make 0 1 1)] /\
     r = merge_specimen {[ "Category:Foo"%string := CategoryInfo 3 1 2 ]} s /\
     FileCount r = 0 /\ SubCats r = 0 /\ SubCatsFileCounts r = 0 /\
     TotalFiles r = 0 /\ r = s) /\
  (let s := Specimen "Felis catus" "" "Q1" "Category:Bar" 0 0 0 0 " / " "" "" in
   exists r,
     r ∈ merge [[s]] {[ "Category:Foo"%string := CategoryInfo 3 1 2 ]}
           [("1"%string, Slice.Make 0 1 1)] /\
     r = merge_specimen {[ "Category:Foo"%string := CategoryInfo 3 1 2 ]} s /\
     FileCount r = 0 /\ SubCats r = 0 /\ SubCatsFileCounts r = 0 /\
     TotalFiles r = 0 /\ r = s).
Proof.
  split.
  - apply (C4_missing_key_zero_stats Demo.commons_categoryinfo Demo.commons_subcats
             [[unresolved_specimen]]
             [["Category:Foo"%string]]
             {[ "Category:Foo"%string := CategoryInfo 3 1 2 ]}
             [("2"%string, Slice.Make 0 1 1)] ("2"%string, Slice.Make 0 1 1)).
    + apply list_elem_of_here.
    + vm_compute. apply list_elem_of_here.
    + right. split; [reflexivity|]. split; [vm_compute; reflexivity|].
      intros p Hp. rewrite (demo_reported p Hp). discriminate.
  - apply (C4_missing_key_zero_stats Demo.commons_categoryinfo Demo.commons_subcats
             [[Specimen "Felis catus" "" "Q1" "Category:Bar" 0 0 0 0 " / " "" ""]]
             [["Category:Bar"%string]]
             {[ "Category:Foo"%string := CategoryInfo 3 1 2 ]}
             [("1"%string, Slice.Make 0 1 1)] ("1"%string, Slice.Make 0 1 1)).
    + apply list_elem_of_here.
    + vm_compute. apply list_elem_of_here.
    + left. vm_compute. reflexivity.
Defined.

(** ** Sorting by original name *)

Lemma string_ltb_irrefl s : String.ltb s s = false.
Proof.
  unfold String.ltb. pose proof (String.compare_antisym s s) as H.
  destruct (String.compare s s); simpl in H; congruence.
Qed.

Lemma string_ltb_trans a b c :
  String.ltb a b = true -> String.ltb b c = true -> String.ltb a c = true.
Proof.
  unfold String.ltb. intros Hab Hbc.
  assert (H1 : String.compare a b = Lt) by (destruct (String.compare a b); done).
  assert (H2 : String.compare b c = Lt) by (destruct (String.compare b c); done).
  apply String_as_OT.cmp_lt in H1, H2.
  pose proof (String_as_OT.lt_trans _ _ _ H1 H2) as H3.
  apply String_as_OT.cmp_lt in H3. unfold String_as_OT.cmp in H3. by rewrite H3.
Qed.

Lemma string_ltb_flip a b :
  String.ltb a b = false -> a = b \/ String.ltb b a = true.
Proof.
  unfold String.ltb. rewrite (String.compare_antisym b a).
  destruct (String.compare a b) eqn:Hc; simpl; try done.
  - intros _. left. by apply String.compare_eq_iff.
  - intros _. by right.
Qed.

Lemma string_ltb_asym a b : String.ltb a b = true -> String.ltb b a = false.
Proof.
  unfold String.ltb. rewrite (String.compare_antisym b a).
  destruct (String.compare a b); simpl; done.
Qed.

Lemma string_ltb_neg_trans a b c :
  String.ltb a b = false -> String.ltb b c = false -> String.ltb a c = false.
Proof.
  intros Hab Hbc.
  destruct (string_ltb_flip _ _ Hab) as [->|Hba]; [done|].
  destruct (string_ltb_flip _ _ Hbc) as [->|Hcb]; [done|].
  apply string_ltb_asym. by eapply string_ltb_trans.
Qed.

Lemma byOriginalName_ordering : less_ordering byOriginalName_Less.
Proof.
  unfold byOriginalName_Less. constructor.
  - intros a. apply string_ltb_irrefl.
  - intros a b c. apply string_ltb_trans.
  - intros a b c. apply string_ltb_neg_trans.
Qed.

Lemma string_not_ltb_leb a b : String.ltb b a = false -> String.leb a b = true.
Proof.
  unfold String.ltb, String.leb. rewrite (String.compare_antisym a b).
  destruct (String.compare b a); simpl; done.
Qed.

(** A buffer in ascending order for [Less] has each record's original
    name ≤ that of every later record, the next one in particular. *)
Lemma specimensBuffer_ascending
    (sort_Sort : (specimen -> specimen -> bool) -> list specimen -> list specimen)
    (specimens : list specimen) :
  sort_contract sort_Sort ->
  specimensBuffer sort_Sort specimens ≡ₚ specimens /\
  (forall i j a b, (i < j)%nat ->
     specimensBuffer sort_Sort specimens !! i = Some a ->
     specimensBuffer sort_Sort specimens !! j = Some b ->
     String.leb (OriginalName a) (OriginalName b) = true) /\
  (forall i a b,
     specimensBuffer sort_Sort specimens !! i = Some a ->
     specimensBuffer sort_Sort specimens !! S i = Some b ->
     String.leb (OriginalName a) (OriginalName b) = true).
Proof.
  intros Hsort. unfold specimensBuffer.
  destruct (Hsort byOriginalName_Less specimens byOriginalName_ordering)
    as [Hperm Hasc].
  split; [done|].
  assert (Hall : forall i j a b, (i < j)%nat ->
            sort_Sort byOriginalName_Less specimens !! i = Some a ->
            sort_Sort byOriginalName_Less specimens !! j = Some b ->
            String.leb (OriginalName a) (OriginalName b) = true).
  { intros i j a b Hij Ha Hb. apply string_not_ltb_leb.
    apply (Hasc i j a b Hij Ha Hb). }
  split; [done|]. intros i a b. apply Hall. lia.
Qed.

(** *** A sort that meets the contract *)

Lemma insert_by_perm {A} (less : A -> A -> bool) x l : insert_by less x l ≡ₚ x :: l.
Proof.
  induction l as [|y l IH]; simpl; [done|].
  destruct (less x y); [done|]. rewrite IH. apply Permutation_swap.
Qed.

Lemma insertion_sort_perm {A} (less : A -> A -> bool) l : insertion_sort less l ≡ₚ l.
Proof.
  induction l as [|x l IH]; simpl; [done|].
  rewrite insert_by_perm. by rewrite IH.
Qed.

Lemma ascending_cons {A} (less : A -> A -> bool) x l :
  ascending less (x :: l) <->
  Forall (fun b => less b x = false) l /\ ascending less l.
Proof.
  split.
  - intros Hasc. split.
    + apply Forall_lookup. intros j b Hb. apply (Hasc 0%nat (S j) x b); [lia|done|done].
    + intros i j a b Hij Ha Hb. apply (Hasc (S i) (S j) a b); [lia|done|done].
  - intros [Hall Hasc] i j a b Hij Ha Hb.
    destruct j as [|j]; [lia|]. simpl in Hb.
    destruct i as [|i]; simpl in Ha.
    + injection Ha as <-. by eapply (proj1 (Forall_lookup _ _) Hall).
    + apply (Hasc i j a b); [lia|done|done].
Qed.

Lemma ascending_nil {A} (less : A -> A -> bool) : ascending less [].
Proof. intros i j a b _ Ha. by rewrite lookup_nil in Ha. Qed.

Lemma insert_by_ascending {A} (less : A -> A -> bool) x l :
  less_ordering less -> ascending less l -> ascending less (insert_by less x l).
Proof.
  intros [Hirr Htr Hneg]. induction l as [|y l IH]; intros Hasc; simpl.
  - apply ascending_cons. split; [done|apply ascending_nil].
  - destruct (less x y) eqn:Hxy.
    + apply ascending_cons. split; [|done].
      assert (Hyx : less y x = false).
      { destruct (less y x) eqn:Hyx; [|done].
        by rewrite <- (Hirr x), (Htr x y x Hxy Hyx). }
      apply ascending_cons in Hasc as [Hall _].
      constructor; [done|].
      eapply Forall_impl; [exact Hall|]. simpl. intros b Hby. by eapply Hneg.
    + apply ascending_cons in Hasc as [Hall Hasc].
      apply ascending_cons. split; [|by apply IH].
      rewrite insert_by_perm. by constructor.
Qed.

Lemma insertion_sort_contract : sort_contract insertion_sort.
Proof.
  intros less l Hless. split; [apply insertion_sort_perm|].
  induction l as [|x l IH]; simpl; [apply ascending_nil|].
  by apply insert_by_ascending.
Qed.

Example insertion_sort_names :
  OriginalName <$> specimensBuffer insertion_sort
    [Specimen "Felis catus" "" "Q1" "" 0 0 0 0 "" "" "";
     Specimen "Canis lupus" "" "Q2" "" 0 0 0 0 "" "" "";
     Specimen "Felis" "" "Q3" "" 0 0 0 0 "" "" ""]
  = ["Canis lupus"; "Felis"; "Felis catus"]%string.
Proof. vm_compute. reflexivity. Qed.

(** *** [sort.Sort] through the methods of [byOriginalName] *)

Lemma index_at_inv {A} (l : list A) i x :
  index_at l i = Ok x -> l !! Z.to_nat i = Some x.
Proof.
  unfold index_at. destruct (0 <=? i); [|done].
  destruct (l !! Z.to_nat i); [|done]. by intros [= ->].
Qed.

Lemma index_at_middle {A} (pre : list A) x post :
  index_at (pre ++ x :: post) (Z.of_nat (length pre)) = Ok x.
Proof.
  unfold index_at. rewrite (proj2 (Z.leb_le 0 _)) by lia.
  by rewrite Nat2Z.id, list_lookup_middle.
Qed.

(** [Swap] exchanges the two cells, as [sort.Sort] expects of it. *)
Lemma byOriginalName_Swap_exchange a i j :
  byOriginalName_Swap a i j = exchange a i j.
Proof.
  unfold byOriginalName_Swap, exchange.
  destruct (index_at a i) as [x|] eqn:Hi; simpl; [|done].
  destruct (index_at a j) as [y|] eqn:Hj; simpl; [|done].
  apply index_at_inv in Hi, Hj. f_equal.
  destruct (decide (Z.to_nat i = Z.to_nat j)) as [Heq|Hne].
  - rewrite Heq in *. congruence.
  - by apply list_insert_insert_ne.
Qed.

Lemma run_specimens_by less c : forall a,
  run (specimens_by less) c a = run (slice_interface less) c a.
Proof.
  induction c as [|i j next IH|i j next IH]; intros a; simpl; [done| |].
  - destruct (index_at a i) as [x|]; simpl; [|done].
    destruct (index_at a j) as [y|]; simpl; [|done]. apply IH.
  - rewrite byOriginalName_Swap_exchange.
    destruct (exchange a i j) as [a'|]; simpl; [|done]. apply IH.
Qed.

Lemma sort_Sort_on_byOriginalName algorithm a :
  sort_Sort_on algorithm byOriginalName a
  = sort_Sort_on algorithm (slice_interface byOriginalName_Less) a.
Proof.
  unfold sort_Sort_on. apply (run_specimens_by byOriginalName_Less).
Qed.

(** With the methods of [byOriginalName], an algorithm that meets the
    contract of [sort.Sort] sorts the buffer. *)
Lemma sort_Sort_through_contract algorithm :
  sort_algorithm_contract algorithm -> sort_contract (sort_Sort_through algorithm).
Proof.
  intros Halg less l Hless. unfold sort_Sort_through.
  destruct (Halg specimen less l Hless) as (l' & Hrun & Hperm & Hasc).
  unfold sort_Sort_on in *. rewrite run_specimens_by.
  cbn [Len specimens_by slice_interface] in *. unfold byOriginalName_Len.
  by rewrite Hrun.
Qed.

(** *** The insertion sort of package sort meets the contract *)

Lemma sift_snoc {A} (less : A -> A -> bool) x pre y :
  sift less x (pre ++ [y])
  = if less x y then sift less x pre ++ [y] else pre ++ [y; x].
Proof.
  unfold sift. rewrite reverse_snoc. simpl. destruct (less x y).
  - by rewrite reverse_cons.
  - rewrite !reverse_cons, reverse_involutive. by rewrite <- app_assoc.
Qed.

Lemma sift_perm {A} (less : A -> A -> bool) x pre : sift less x pre ≡ₚ x :: pre.
Proof.
  induction pre as [|y pre IH] using rev_ind; [done|].
  rewrite sift_snoc. destruct (less x y).
  - by rewrite IH.
  - rewrite (Permutation_cons_append (pre ++ [y]) x). by rewrite <- app_assoc.
Qed.

Lemma sift_length {A} (less : A -> A -> bool) x pre :
  length (sift less x pre) = S (length pre).
Proof. by rewrite sift_perm. Qed.

Lemma ascending_app {A} (less : A -> A -> bool) l1 l2 :
  ascending less (l1 ++ l2) <->
  ascending less l1 /\ ascending less l2 /\
  Forall (fun a => Forall (fun b => less b a = false) l2) l1.
Proof.
  induction l1 as [|x l1 IH]; simpl.
  - split; [|tauto]. intros H. split; [apply ascending_nil|]. by split.
  - rewrite !ascending_cons, IH, Forall_app, Forall_cons. tauto.
Qed.

Lemma ascending_singleton {A} (less : A -> A -> bool) x : ascending less [x].
Proof. apply ascending_cons. split; [constructor|apply ascending_nil]. Qed.

Lemma sift_ascending {A} (less : A -> A -> bool) x pre :
  less_ordering less -> ascending less pre -> ascending less (sift less x pre).
Proof.
  intros [Hirr Htr Hneg].
  induction pre as [|y pre IH] using rev_ind; intros Hasc.
  - apply ascending_singleton.
  - pose proof Hasc as Hasc'.
    apply ascending_app in Hasc' as (Hpre & _ & Hall).
    rewrite sift_snoc. destruct (less x y) eqn:Hxy.
    + apply ascending_app. split; [by apply IH|].
      split; [apply ascending_singleton|].
      rewrite sift_perm. constructor; [|done].
      constructor; [|done].
      destruct (less y x) eqn:Hyx; [|done].
      by rewrite <- (Hirr x), (Htr x y x Hxy Hyx).
    + replace (pre ++ [y; x]) with ((pre ++ [y]) ++ [x]) by (by rewrite <- app_assoc).
      apply ascending_app. split; [done|].
      split; [apply ascending_singleton|].
      apply Forall_app. split; [|by repeat constructor].
      eapply Forall_impl; [exact Hall|]. simpl. intros a Ha.
      constructor; [|done]. inversion Ha; subst. by eapply Hneg.
Qed.

(** The inner loop moves the element at [j] down to its place among the
    [j] elements before it. *)
Lemma run_insertion_loop {A} (less : A -> A -> bool) next : forall pre x post,
  run (slice_interface less) (insertion_loop (length pre) next) (pre ++ x :: post)
  = run (slice_interface less) next (sift less x pre ++ post).
Proof.
  induction pre as [|y pre IH] using rev_ind; intros x post; [done|].
  assert (Hx : index_at ((pre ++ [y]) ++ x :: post) (Z.of_nat (S (length pre))) = Ok x).
  { replace (S (length pre)) with (length (pre ++ [y]))
      by (rewrite length_app; simpl; lia).
    apply index_at_middle. }
  assert (Hy : index_at ((pre ++ [y]) ++ x :: post) (Z.of_nat (length pre)) = Ok y).
  { rewrite <- app_assoc. apply index_at_middle. }
  rewrite length_app. simpl length. rewrite Nat.add_1_r.
  cbn [insertion_loop run Less slice_interface]. rewrite Hx, Hy.
  cbn [mbind result_bind]. rewrite sift_snoc. destruct (less x y).
  - cbn [run Swap slice_interface]. unfold exchange. rewrite Hx, Hy.
    cbn [mbind result_bind]. rewrite !Nat2Z.id.
    replace (<[S (length pre) := y]> (<[length pre := x]> ((pre ++ [y]) ++ x :: post)))
      with (pre ++ x :: y :: post).
    + rewrite IH. by rewrite <- app_assoc.
    + rewrite <- app_assoc. simpl.
      rewrite (insert_app_r_alt pre _ (length pre)) by lia.
      rewrite (insert_app_r_alt pre _ (S (length pre))) by lia.
      replace (length pre - length pre)%nat with 0%nat by lia.
      replace (S (length pre) - length pre)%nat with 1%nat by lia. done.
  - by rewrite <- !app_assoc.
Qed.

Lemma run_insertionSort_from {A} (less : A -> A -> bool) : forall rest pre,
  run (slice_interface less) (insertionSort_from (length pre) (length rest))
      (pre ++ rest)
  = Ok (foldl (fun acc x => sift less x acc) pre rest).
Proof.
  induction rest as [|x rest IH]; intros pre; simpl.
  - by rewrite app_nil_r.
  - rewrite run_insertion_loop. rewrite <- (sift_length less x pre). apply IH.
Qed.

Lemma foldl_sift_perm {A} (less : A -> A -> bool) : forall rest pre,
  foldl (fun acc x => sift less x acc) pre rest ≡ₚ pre ++ rest.
Proof.
  induction rest as [|x rest IH]; intros pre; simpl.
  - by rewrite app_nil_r.
  - rewrite IH, sift_perm. simpl. apply Permutation_middle.
Qed.

Lemma foldl_sift_ascending {A} (less : A -> A -> bool) :
  less_ordering less -> forall rest pre,
  ascending less pre -> ascending less (foldl (fun acc x => sift less x acc) pre rest).
Proof.
  intros Hless. induction rest as [|x rest IH]; intros pre Hpre; simpl; [done|].
  apply IH. by apply sift_ascending.
Qed.

Lemma insertionSort_contract : sort_algorithm_contract insertionSort.
Proof.
  intros A less l Hless. unfold sort_Sort_on. cbn [Len slice_interface].
  destruct l as [|x0 rest].
  - exists []. split; [done|]. split; [done|apply ascending_nil].
  - exists (foldl (fun acc x => sift less x acc) [x0] rest). split.
    + unfold insertionSort.
      replace (Z.to_nat (Z.of_nat (length (x0 :: rest))) - 1)%nat
        with (length rest) by (simpl; lia).
      apply (run_insertionSort_from less rest [x0]).
    + split; [apply (foldl_sift_perm less rest [x0])|].
      apply foldl_sift_ascending; [done|apply ascending_singleton].
Qed.

Example insertionSort_names :
  sort_Sort_on insertionSort byOriginalName
    [Specimen "Felis catus" "" "Q1" "" 0 0 0 0 "" "" "";
     Specimen "Canis lupus" "" "Q2" "" 0 0 0 0 "" "" "";
     Specimen "Felis" "" "Q3" "" 0 0 0 0 "" "" ""]
  = Ok [Specimen "Canis lupus" "" "Q2" "" 0 0 0 0 "" "" "";
        Specimen "Felis" "" "Q3" "" 0 0 0 0 "" "" "";
        Specimen "Felis catus" "" "Q1" "" 0 0 0 0 "" "" ""].
Proof. vm_compute. reflexivity. Qed.

(** C8: the renderer buffers the whole merged sequence and hands it to
    [sort.Sort] as a [byOriginalName]; [sort.Sort], which reads the buffer
    through [Len] and [Less] and rearranges it through [Swap] only,
    returns without a panic, and the buffer is then that sequence
    rearranged in ascending order of original name, names compared as
    strings byte by byte: each record's original name is ≤ that of every
    later record, the next one in particular.  This is the sequence the
    template is executed on.  Nothing is said of the order of equal
    names. *)
Theorem C8_sorted_by_original_name (algorithm : Z -> calls)
    (specimens : list specimen) :
  sort_algorithm_contract algorithm ->
  exists buffer,
    sort_Sort_on algorithm byOriginalName specimens = Ok buffer /\
    specimensBuffer (sort_Sort_through algorithm) specimens = buffer /\
    buffer ≡ₚ specimens /\
    (forall i j a b, (i < j)%nat ->
       buffer !! i = Some a -> buffer !! j = Some b ->
       String.leb (OriginalName a) (OriginalName b) = true) /\
    (forall i a b,
       buffer !! i = Some a -> buffer !! S i = Some b ->
       String.leb (OriginalName a) (OriginalName b) = true).
Proof.
  intros Halg.
  destruct (Halg specimen byOriginalName_Less specimens byOriginalName_ordering)
    as (buffer & Hrun & Hperm & Hasc).
  rewrite <- sort_Sort_on_byOriginalName in Hrun.
  exists buffer. split; [done|].
  assert (Hbuf : specimensBuffer (sort_Sort_through algorithm) specimens = buffer).
  { unfold specimensBuffer, sort_Sort_through.
    change (specimens_by byOriginalName_Less) with byOriginalName.
    by rewrite Hrun. }
  split; [done|]. split; [done|].
  assert (Hall : forall i j a b, (i < j)%nat ->
            buffer !! i = Some a -> buffer !! j = Some b ->
            String.leb (OriginalName a) (OriginalName b) = true).
  { intros i j a b Hij Ha Hb. apply string_not_ltb_leb.
    apply (Hasc i j a b Hij Ha Hb). }
  split; [done|]. intros i a b. apply Hall. lia.
Qed.

Lemma C8_sorted_by_original_name_witness :
  let specimens := [Specimen "Felis catus" "" "Q1" "" 0 0 0 0 "" "" "";
                    Specimen "Canis lupus" "" "Q2" "" 0 0 0 0 "" "" "";
                    Specimen "Felis" "" "Q3" "" 0 0 0 0 "" "" ""] in
  exists buffer,
    sort_Sort_on insertionSort byOriginalName specimens = Ok buffer /\
    specimensBuffer (sort_Sort_through insertionSort) specimens = buffer /\
    buffer ≡ₚ specimens /\
    (forall i j a b, (i < j)%nat ->
       buffer !! i = Some a -> buffer !! j = Some b ->
       String.leb (OriginalName a) (OriginalName b) = true) /\
    (forall i a b,
       buffer !! i = Some a -> buffer !! S i = Some b ->
       String.leb (OriginalName a) (OriginalName b) = true).
Proof.
  apply (C8_sorted_by_original_name insertionSort). exact insertionSort_contract.
Defined.

(** The scenario of the specification, sorted through the methods of
    [byOriginalName]. *)
Example demo_queryWdq_insertionSort :
  queryWdq Demo.growcap Demo.wdq_Get Demo.commons_categoryinfo
    Demo.commons_subcats Demo.range_map "Projet:Collections" "2"
    (sort_Sort_through insertionSort) unit (Some "tpl"%string) (fun _ => Some tt)
    Demo.Execute (fun _ => Some tt) catalog_specimens
  = Ok {| e_title := "Projet:Collections"; e_section := "2";
          e_text := "Canis lupus=0;Felis catus=5;Felis catus=5";
          e_summary := "Mise à jour"; e_notminor := "" |}.
Proof. vm_compute. reflexivity. Qed.

(** ** Rendering and publishing *)

(** C10: when the template is read and parsed and [Execute] fails partway
    with [partial] written to the buffer, the error is dropped:
    [wiki.Edit] is called with [partial] as the text of the section, and
    the run ends as that call does, the page section being published
    with the partial text when the edit is accepted. *)
Theorem C10_execute_error_discarded
    (pageTitle sectionNumber : string)
    (sort_Sort : (specimen -> specimen -> bool) -> list specimen -> list specimen)
    (template : Type) (ReadFile : option string)
    (Parse : string -> option template)
    (Execute : template -> list specimen -> string * option string)
    (wiki_Edit : editParams -> option unit)
    (specimens : list specimen)
    (templateBytes : string) (tableTemplate : template)
    (partial err : string) :
  ReadFile = Some templateBytes ->
  Parse templateBytes = Some tableTemplate ->
  Execute tableTemplate (specimensBuffer sort_Sort specimens) = (partial, Some err) ->
  let parameters :=
    {| e_title := pageTitle; e_section := sectionNumber; e_text := partial;
       e_summary := "Mise à jour"; e_notminor := "" |} in
  updateWikiPage pageTitle sectionNumber sort_Sort template ReadFile Parse
    Execute wiki_Edit specimens
  = (_ ← check (wiki_Edit parameters); Ok parameters) /\
  (wiki_Edit parameters = Some tt ->
   updateWikiPage pageTitle sectionNumber sort_Sort template ReadFile Parse
     Execute wiki_Edit specimens = Ok parameters).
Proof.
  intros Hread Hparse Hexec parameters.
  assert (Hrun : updateWikiPage pageTitle sectionNumber sort_Sort template
                   ReadFile Parse Execute wiki_Edit specimens
                 = (_ ← check (wiki_Edit parameters); Ok parameters)).
  { unfold updateWikiPage. rewrite Hread. simpl. rewrite Hparse. simpl.
    rewrite Hexec. done. }
  split; [done|]. intros Hedit. rewrite Hrun, Hedit. done.
Qed.

Lemma C10_execute_error_discarded_witness :
  let parameters :=
    {| e_title := "Projet:Collections"; e_section := "2";
       e_text := "{| class=wikitable"; e_summary := "Mise à jour";
       e_notminor := "" |} in
  updateWikiPage "Projet:Collections" "2" insertion_sort unit (Some "tpl"%string)
    (fun _ => Some tt)
    (fun _ _ => ("{| class=wikitable"%string, Some "can't evaluate field"%string))
    (fun _ => Some tt) [Demo.foo]
  = (_ ← check (Some tt); Ok parameters) /\
  (Some tt = Some tt ->
   updateWikiPage "Projet:Collections" "2" insertion_sort unit (Some "tpl"%string)
     (fun _ => Some tt)
     (fun _ _ => ("{| class=wikitable"%string, Some "can't evaluate field"%string))
     (fun _ => Some tt) [Demo.foo]
   = Ok parameters).
Proof.
  apply (C10_execute_error_discarded "Projet:Collections" "2" insertion_sort unit
           (Some "tpl"%string) (fun _ => Some tt)
           (fun _ _ => ("{| class=wikitable"%string, Some "can't evaluate field"%string))
           (fun _ => Some tt) [Demo.foo] "tpl" tt
           "{| class=wikitable" "can't evaluate field");
    reflexivity.
Defined.

(** * Further properties of the code *)

(** ** The catalog reader *)

(** [readCsvFile] gives one specimen per record, in file order, when every
    record has nine fields, and ends the process otherwise: no catalog is
    read in part. *)
Theorem readCsvFile_all_or_nothing (catalog : list (list string)) :
  readCsvFile catalog
  = if decide (Forall (fun record => length record = 9%nat) catalog)
    then Ok (specimen_of_record <$> catalog)
    else Fatal CheckFailed.
Proof.
  induction catalog as [|record catalog IH].
  - destruct (decide _) as [_|Hn]; [done|]. destruct Hn. constructor.
  - cbn [readCsvFile]. rewrite IH.
    destruct (length record =? 9)%nat eqn:Hlen.
    + apply Nat.eqb_eq in Hlen.
      destruct (decide (Forall _ catalog)) as [Hall|Hall];
        destruct (decide (Forall _ (record :: catalog))) as [Hcons|Hcons]; try done.
      * destruct Hcons. by constructor.
      * destruct Hall. by inversion Hcons.
    + apply Nat.eqb_neq in Hlen.
      destruct (decide (Forall _ (record :: catalog))) as [Hcons|Hcons]; [|done].
      by inversion Hcons.
Qed.

(** ** The identifiers sent to WDQ *)

(** The first loop of [queryWdq] collects one identifier per specimen, in
    catalog order and with its leading Q removed; an identifier shared by
    several specimens is listed once for each of them. *)
Theorem wikidataIds_one_per_specimen (growcap : nat -> nat) (specimens : list specimen) :
  wikidataIds (group_specimens growcap specimens)
  = (fun s => GoString.TrimPrefix_Q (WikidataItemId s)) <$> specimens.
Proof. apply (group_specimens_spec growcap specimens). Qed.

(** ** The shape of the queries *)

Lemma lookup_uniform_concat {A} (n : nat) (Q : list (list A)) : forall j chunk,
  Forall (fun c => length c = n) Q ->
  Q !! j = Some chunk ->
  chunk = take n (drop (n * j) (concat Q)).
Proof.
  induction Q as [|c Q IH]; intros j chunk Hall Hj; [done|].
  inversion Hall as [|? ? Hc HQ]; subst. cbn [concat].
  destruct j as [|j]; simpl in Hj.
  - injection Hj as <-. by rewrite Nat.mul_0_r, drop_0, take_app_length.
  - replace (length c * S j)%nat with (length c + length c * j)%nat by lia.
    rewrite <- drop_drop, drop_app_length. by apply IH.
Qed.

(** The queries are the consecutive windows of 50 names of
    [categoryNames]: query [j] holds the names of rows [50 j] to
    [50 j + 49]; every query but the last holds exactly 50 names, and the
    last holds at least one as soon as the answer has a row. *)
Theorem queries_are_windows (g : grouping) (rows : list wdqRow) :
  exists st, resolve g rows = Ok st /\
    forall j chunk, commonsQueries st !! j = Some chunk ->
      chunk = take 50 (drop (50 * j) (row_name <$> rows)) /\
      (S j < length (commonsQueries st) -> length chunk = 50)%nat /\
      (rows <> [] -> chunk <> []).
Proof.
  unfold resolve.
  destruct (props_loop_batching (specimensByWikidataId g) rows _ 0%nat
              (batching_inv_init (g_heap g)))
    as (st & Hloop & Hnames & [Hlen Hcur Hcat Hfull Hlo Hhi]).
  change (Z.of_nat 0) with 0 in Hloop.
  simpl in Hnames, Hlen, Hlo, Hhi. rewrite Hloop. simpl.
  assert (Hc : 0 <= cursor st <= Z.of_nat (length (categoryNames st))).
  { destruct (length rows) as [|n] eqn:Hn; [rewrite Hlo by done; lia|].
    specialize (Hhi ltac:(lia)). lia. }
  unfold go_slice_from. rewrite go_slice_ok by lia. simpl.
  eexists; split; [reflexivity|]. cbn [commonsQueries].
  rewrite take_ge by (rewrite length_drop; lia).
  set (Q := commonsQueries st) in *. set (names := categoryNames st) in *.
  assert (Hcn : Z.to_nat (cursor st) = (50 * length Q)%nat) by lia.
  rewrite Hcn in *.
  intros j chunk Hj.
  replace (row_name <$> rows) with names by exact Hnames.
  destruct (decide (j < length Q)%nat) as [Hlt|Hge].
  - rewrite lookup_app_l in Hj by done.
    pose proof (proj1 (Forall_lookup _ _) Hfull _ _ Hj) as Hsize.
    split; [|split; [done|]].
    + rewrite (lookup_uniform_concat 50 Q j chunk Hfull Hj), Hcat.
      rewrite !take_drop_commute, take_take. do 2 f_equal. lia.
    + intros _ ->. done.
  - assert (j = length Q) as ->.
    { apply lookup_lt_Some in Hj. rewrite length_app in Hj. simpl in Hj. lia. }
    rewrite list_lookup_middle in Hj by done. injection Hj as <-.
    split; [|split].
    + rewrite take_ge; [done|].
      rewrite length_drop.
      destruct (length rows) as [|n] eqn:Hn; [lia|]. specialize (Hhi ltac:(lia)). lia.
    + rewrite length_app. simpl. lia.
    + intros Hrows Hnil. assert (length rows <> 0%nat) as Hn by (by destruct rows).
      specialize (Hhi Hn).
      apply (f_equal length) in Hnil. rewrite length_drop in Hnil. simpl in Hnil. lia.
Qed.

(** ** Resolution touches the category name only *)

Lemma catalog_fields_with_name n s :
  catalog_fields (with_CommonsCategoryName n s) = catalog_fields s.
Proof. reflexivity. Qed.

(** On rows that have been read, the loop neither adds nor drops nor
    moves a record. *)
Lemma resolve_keeps_groups (growcap : nat -> nat) (specimens : list specimen)
    (rows : list wdqRow) :
  exists st, resolve (group_specimens growcap specimens) rows = Ok st /\
    forall k,
      with_CommonsCategoryName EmptyString
        <$> Slice.view (r_heap st)
              (group_slice (specimensByWikidataId (group_specimens growcap specimens)) k)
      = with_CommonsCategoryName EmptyString
          <$> group_members (group_specimens growcap specimens) k.
Proof.
  set (g := group_specimens growcap specimens).
  destruct (resolve_spec g rows) as (st & Hres & _ & _ & _ & _ & Hheap).
  exists st. split; [done|]. intros k.
  destruct (group_specimens_spec growcap specimens) as (Hwf & _ & _).
  fold g in Hwf.
  destruct (resolve_heap_spec (specimensByWikidataId g) rows _ Hwf) as (_ & Hafter).
  unfold group_members. rewrite <- !groups_lookup, Hheap, Hafter.
  destruct (resolved_name k rows) as [n|]; [|done].
  rewrite <- list_fmap_compose. done.
Qed.

Lemma read_row_shape {float64} (int_of_float64 : float64 -> Z)
    (itemProp : list (value float64)) :
  (exists row, read_row int_of_float64 itemProp = Ok row) <-> row_shape itemProp.
Proof.
  unfold read_row, row_shape, index_at. simpl. split.
  - intros [row Hrow].
    destruct itemProp as [|v0 [|v1 [|v2 rest]]]; simpl in Hrow; try done.
    + by destruct v0.
    + by destruct v0.
    + destruct v0 as [f| |]; simpl in Hrow; try done.
      destruct v2 as [|s|]; simpl in Hrow; try done.
      by exists f, v1, s, rest.
  - intros (f & v & s & rest & ->). simpl. by eexists.
Qed.

Lemma read_rows_shape {float64} (int_of_float64 : float64 -> Z)
    (rows : list (list (value float64))) :
  (exists rows', read_rows int_of_float64 rows = Ok rows') <-> Forall row_shape rows.
Proof.
  induction rows as [|itemProp rows IH]; simpl.
  - split; [constructor|by eexists].
  - rewrite Forall_cons, <- IH, <- (read_row_shape int_of_float64). split.
    + intros [rows' Hrows].
      destruct (read_row _ itemProp) as [row|]; simpl in Hrows; [|done].
      destruct (read_rows _ rows) as [rows1|]; simpl in Hrows; [|done].
      split; by eexists.
    + intros [[row ->] [rows1 ->]]. simpl. by eexists.
Qed.

(** The loop on the rows as they come is the loop on the rows read, and
    panics as the first row that cannot be read does. *)
Lemma props_loop_raw_spec {float64} (int_of_float64 : float64 -> Z) m
    (rows : list (list (value float64))) : forall st n,
  batching_inv n st ->
  props_loop_raw int_of_float64 m (Z.of_nat n) rows st
  = (rows' ← read_rows int_of_float64 rows; props_loop m (Z.of_nat n) rows' st).
Proof.
  induction rows as [|itemProp rows IH]; intros st n Hinv; simpl; [done|].
  destruct (read_row _ itemProp) as [row|]; simpl; [|done].
  destruct (props_step_batching m st row n Hinv) as (st1 & Hstep & _ & Hinv1).
  rewrite Hstep. simpl.
  replace (Z.of_nat n + 1) with (Z.of_nat (S n)) by lia.
  rewrite (IH st1 (S n) Hinv1).
  destruct (read_rows _ rows) as [rows'|]; simpl; [|done].
  rewrite Hstep. simpl. f_equal. lia.
Qed.

Lemma resolve_raw_spec {float64} (int_of_float64 : float64 -> Z) g
    (rows : list (list (value float64))) :
  resolve_raw int_of_float64 g rows
  = (rows' ← read_rows int_of_float64 rows; resolve g rows').
Proof.
  unfold resolve_raw, resolve.
  rewrite (props_loop_raw_spec int_of_float64 _ rows _ 0%nat (batching_inv_init _)).
  by destruct (read_rows _ rows).
Qed.

Example resolve_raw_panics :
  resolve_raw (fun f : Z => f) grouping_init
    [[Float64 1; Other; String_ "Foo"]; [Float64 2; Other]]
  = Fatal IndexOutOfRange /\
  resolve_raw (fun f : Z => f) grouping_init
    [[Float64 1; Other; String_ "Foo"]; [String_ "2"; Other; String_ "Bar"]]
  = Fatal (Panic "interface conversion") /\
  resolve_raw (fun f : Z => f) grouping_init
    [[Float64 1; Other; String_ "Foo"]; [Float64 2; Other; String_ "Bar"]]
  = resolve grouping_init [(1, "Foo"); (2, "Bar")]%string.
Proof. repeat split. Qed.

(** The loop over the answer panics exactly when some row has no number
    in its first cell or no string in its third (a cell missing
    included), at the first such row.  On any other answer it neither adds
    nor drops nor moves a record: each group keeps its records in order,
    with every field but the category name (and so the statistics too) as
    the first loop left them. *)
Theorem resolve_raw_keeps_groups {float64} (int_of_float64 : float64 -> Z)
    (growcap : nat -> nat) (specimens : list specimen)
    (rows : list (list (value float64))) :
  ((exists st, resolve_raw int_of_float64 (group_specimens growcap specimens) rows
               = Ok st)
   <-> Forall row_shape rows) /\
  (forall e, read_rows int_of_float64 rows = Fatal e ->
     resolve_raw int_of_float64 (group_specimens growcap specimens) rows = Fatal e) /\
  (forall st,
     resolve_raw int_of_float64 (group_specimens growcap specimens) rows = Ok st ->
     forall k,
       with_CommonsCategoryName EmptyString
         <$> Slice.view (r_heap st)
               (group_slice (specimensByWikidataId (group_specimens growcap specimens)) k)
       = with_CommonsCategoryName EmptyString
           <$> group_members (group_specimens growcap specimens) k).
Proof.
  rewrite resolve_raw_spec, <- (read_rows_shape int_of_float64).
  destruct (read_rows int_of_float64 rows) as [rows'|e0]; simpl.
  - destruct (resolve_keeps_groups growcap specimens rows') as (st & Hres & Hkeep).
    split; [split; intros _; by eexists|]. split; [done|].
    intros st' Hst'. assert (st' = st) as -> by congruence. exact Hkeep.
  - split; [split; intros [? [=]]|]. split; [by intros e [= ->]|done].
Qed.

(** ** Identifiers and keys *)

Lemma Itoa_no_prefix_Q n : GoString.TrimPrefix_Q (GoString.Itoa n) = GoString.Itoa n.
Proof.
  unfold GoString.Itoa. destruct (Z.to_int n) as [u|u]; [|done].
  destruct u; reflexivity.
Qed.

Lemma to_int_not_nil n :
  Z.to_int n <> Decimal.Pos Decimal.Nil /\ Z.to_int n <> Decimal.Neg Decimal.Nil.
Proof.
  pose proof (DecimalZ.to_of (Z.to_int n)) as Hnorm.
  rewrite DecimalZ.of_to in Hnorm.
  split; intros Heq; rewrite Heq in Hnorm; simpl in Hnorm; discriminate.
Qed.

Lemma Itoa_inj n m : GoString.Itoa n = GoString.Itoa m -> n = m.
Proof.
  unfold GoString.Itoa. intros Heq.
  destruct (to_int_not_nil n) as [Hn1 Hn2]. destruct (to_int_not_nil m) as [Hm1 Hm2].
  pose proof (NilZero.isi _ Hn1 Hn2) as H1.
  pose proof (NilZero.isi _ Hm1 Hm2) as H2.
  rewrite Heq, H2 in H1. injection H1 as H1.
  by apply DecimalZ.to_int_inj.
Qed.

(** A specimen is filed under the key of item [n] exactly when its
    catalog identifier is the decimal writing of [n], with or without one
    leading Q; and two different items never share a key. *)
Theorem group_key_of_item (s : specimen) (n : Z) :
  (group_key s = GoString.Itoa n <->
   WikidataItemId s = GoString.Itoa n \/
   WikidataItemId s = String "Q" (GoString.Itoa n)) /\
  (forall m, GoString.Itoa n = GoString.Itoa m -> n = m).
Proof.
  split; [|apply Itoa_inj]. unfold group_key. split.
  - destruct (WikidataItemId s) as [|c rest] eqn:Hid; simpl; [by left|].
    destruct (Ascii.eqb c "Q") eqn:Hc.
    + apply Ascii.eqb_eq in Hc as ->. intros ->. by right.
    + intros <-. by left.
  - intros [->| ->]; [apply Itoa_no_prefix_Q|]. reflexivity.
Qed.

(** ** The sort interface *)

(** [Less] is the strict weak ordering [sort.Sort] asks for, and two
    specimens are equal for it exactly when they have the same original
    name. *)
Theorem Less_orders_by_name :
  less_ordering byOriginalName_Less /\
  forall a b,
    (byOriginalName_Less a b = false /\ byOriginalName_Less b a = false)
    <-> OriginalName a = OriginalName b.
Proof.
  split; [apply byOriginalName_ordering|]. intros a b. unfold byOriginalName_Less.
  split.
  - intros [Hab Hba]. destruct (string_ltb_flip _ _ Hab) as [Heq|Hlt]; [done|].
    congruence.
  - intros ->. split; apply string_ltb_irrefl.
Qed.

Lemma index_at_Ok {A} (a : list A) i :
  0 <= i < Z.of_nat (length a) ->
  exists x, a !! Z.to_nat i = Some x /\ index_at a i = Ok x.
Proof.
  intros Hi. unfold index_at. rewrite (proj2 (Z.leb_le 0 i)) by lia.
  destruct (lookup_lt_is_Some_2 a (Z.to_nat i)) as [x Hx]; [lia|].
  exists x. by rewrite Hx.
Qed.

(** Within bounds, [Swap] exchanges the two cells and nothing else: the
    slice is rearranged, keeps its length, and a second [Swap] of the
    same cells puts it back. *)
Theorem Swap_exchanges (a : list specimen) (i j : Z) :
  0 <= i < byOriginalName_Len a ->
  0 <= j < byOriginalName_Len a ->
  exists a', byOriginalName_Swap a i j = Ok a' /\
    a' ≡ₚ a /\
    byOriginalName_Len a' = byOriginalName_Len a /\
    index_at a' i = index_at a j /\
    index_at a' j = index_at a i /\
    (forall k, k <> i -> k <> j -> index_at a' k = index_at a k) /\
    byOriginalName_Swap a' i j = Ok a.
Proof.
  unfold byOriginalName_Len. intros Hi Hj.
  destruct (index_at_Ok a i Hi) as (x & Hx & Hix).
  destruct (index_at_Ok a j Hj) as (y & Hy & Hjy).
  unfold byOriginalName_Swap. rewrite Hix, Hjy. simpl.
  set (a' := <[Z.to_nat j := x]> (<[Z.to_nat i := y]> a)).
  assert (Hlen : length a' = length a) by (unfold a'; by rewrite !length_insert).
  assert (Hj' : a' !! Z.to_nat j = Some x).
  { unfold a'. apply list_lookup_insert_eq. rewrite length_insert. lia. }
  assert (Hi' : a' !! Z.to_nat i = Some y).
  { unfold a'. destruct (decide (Z.to_nat j = Z.to_nat i)) as [Heq|Hne].
    - rewrite Heq in *. rewrite list_lookup_insert_eq by (rewrite length_insert; lia).
      congruence.
    - rewrite list_lookup_insert_ne by done. apply list_lookup_insert_eq. lia. }
  exists a'. split; [done|]. split; [by apply Permutation_insert_swap|].
  split; [by rewrite Hlen|].
  assert (Hat : forall k z, 0 <= k -> a' !! Z.to_nat k = Some z -> index_at a' k = Ok z).
  { intros k z Hk Hz. unfold index_at. rewrite (proj2 (Z.leb_le 0 k)) by lia.
    by rewrite Hz. }
  split; [apply Hat; [lia|done]|].
  split; [apply Hat; [lia|done]|].
  split.
  - intros k Hki Hkj. unfold index_at. destruct (0 <=? k) eqn:Hk; [|done].
    apply Z.leb_le in Hk. unfold a'.
    rewrite !list_lookup_insert_ne by lia. done.
  - rewrite (Hat i y) by (lia || done). rewrite (Hat j x) by (lia || done). simpl.
    f_equal. unfold a'.
    destruct (decide (Z.to_nat j = Z.to_nat i)) as [Heq|Hne].
    + rewrite Heq in *. rewrite !list_insert_insert_eq.
      assert (x = y) as -> by congruence. by apply list_insert_id.
    + rewrite (list_insert_insert_ne _ (Z.to_nat i) (Z.to_nat j)) by done.
      rewrite !list_insert_insert_eq.
      rewrite (list_insert_id _ _ _ Hx). by apply list_insert_id.
Qed.

Lemma Swap_exchanges_witness :
  exists a',
    byOriginalName_Swap [Demo.foo; with_CommonsCategoryName "x" Demo.foo] 0 1 = Ok a' /\
    a' ≡ₚ [Demo.foo; with_CommonsCategoryName "x" Demo.foo] /\
    byOriginalName_Len a'
    = byOriginalName_Len [Demo.foo; with_CommonsCategoryName "x" Demo.foo] /\
    index_at a' 0 = index_at [Demo.foo; with_CommonsCategoryName "x" Demo.foo] 1 /\
    index_at a' 1 = index_at [Demo.foo; with_CommonsCategoryName "x" Demo.foo] 0 /\
    (forall k, k <> 0 -> k <> 1 ->
       index_at a' k = index_at [Demo.foo; with_CommonsCategoryName "x" Demo.foo] k) /\
    byOriginalName_Swap a' 0 1 = Ok [Demo.foo; with_CommonsCategoryName "x" Demo.foo].
Proof.
  apply (Swap_exchanges [Demo.foo; with_CommonsCategoryName "x" Demo.foo] 0 1);
    vm_compute; split; congruence.
Defined.

(** ** Counting the files of subcategories *)

Lemma GoInt_wrap_add_l a b : GoInt.wrap (GoInt.wrap a + b) = GoInt.wrap (a + b).
Proof.
  unfold GoInt.wrap.
  replace ((a + GoInt.half_modulus) mod GoInt.modulus - GoInt.half_modulus + b
           + GoInt.half_modulus)
    with ((a + GoInt.half_modulus) mod GoInt.modulus + b) by lia.
  rewrite Zplus_mod_idemp_l. f_equal. f_equal. lia.
Qed.

Lemma GoInt_wrap_wrap a : GoInt.wrap (GoInt.wrap a) = GoInt.wrap a.
Proof.
  replace (GoInt.wrap a) with (GoInt.wrap a + 0) at 1 by lia.
  rewrite GoInt_wrap_add_l. f_equal. lia.
Qed.

Lemma count_files_wrap pages : forall acc,
  foldl count_files (GoInt.wrap acc) pages = GoInt.wrap (acc + sum_files pages).
Proof.
  induction pages as [|p pages IH]; intros acc; simpl.
  - f_equal. lia.
  - unfold count_files at 2. destruct (p_files p) as [f|]; simpl.
    + unfold GoInt.add. rewrite GoInt_wrap_add_l, IH. f_equal. lia.
    + rewrite IH. done.
Qed.

Lemma fold_check_fatal {B} (f : B -> list page -> result B) (rs : responses) : forall b,
  ~ Forall is_Some rs ->
  (forall b pages, exists b', f b pages = Ok b') ->
  fold_result (fun b resp => pages ← check resp; f b pages) b rs = Fatal CheckFailed.
Proof.
  induction rs as [|r rs IH]; intros b Hnot Htotal; simpl.
  - destruct Hnot. constructor.
  - destruct r as [pages|]; simpl; [|done].
    destruct (Htotal b pages) as [b' ->]. simpl. apply IH; [|done].
    intros Hall. apply Hnot. constructor; [by eexists|done].
Qed.

Lemma Forall_is_Some_fmap {A} (rs : list (option A)) :
  Forall is_Some rs -> exists l, rs = Some <$> l.
Proof.
  induction 1 as [|r rs [x ->] _ [l ->]]; [by exists []|]. by exists (x :: l).
Qed.

Lemma queryCommonsSubcats_closed (commons_subcats : string -> responses)
    (categoryName : string) :
  queryCommonsSubcats commons_subcats categoryName
  = if decide (Forall is_Some (commons_subcats categoryName))
    then Ok (GoInt.wrap (sum_files (pages_of (commons_subcats categoryName))))
    else Fatal CheckFailed.
Proof.
  unfold queryCommonsSubcats. case_decide as Hall.
  - apply Forall_is_Some_fmap in Hall as [pagess ->].
    rewrite pages_of_Some.
    transitivity (fold_result (fun t pages => Ok (foldl count_files t pages)) 0 pagess).
    + generalize 0. induction pagess as [|pages pagess IH]; intros acc; simpl; [done|].
      apply IH.
    + rewrite fold_count_files. f_equal.
      change 0 with (GoInt.wrap 0) at 1. apply count_files_wrap.
  - apply (fold_check_fatal (fun t pages => Ok (foldl count_files t pages))); [done|].
    intros b pages. by eexists.
Qed.

(** [queryCommonsSubcats] returns the sum of the file counts of all the
    pages of all the responses, reduced to an [int]; pages without a file
    count add nothing, and how the service cuts its answer into responses
    does not matter.  A response that is not an array of pages ends the
    process. *)
Theorem queryCommonsSubcats_sum (commons_subcats : string -> responses)
    (categoryName : string) :
  queryCommonsSubcats commons_subcats categoryName
  = if decide (Forall is_Some (commons_subcats categoryName))
    then Ok (GoInt.wrap (sum_files (pages_of (commons_subcats categoryName))))
    else Fatal CheckFailed.
Proof. apply queryCommonsSubcats_closed. Qed.

(** ** The index, query after query *)

(** A query changes the entries of the titles its answer is about and no
    other; it never removes an entry. *)
Theorem queryCommons_frame (commons_categoryinfo commons_subcats : string -> responses)
    (index index' : gmap string categoryInfo) (names : list string) :
  queryCommons commons_categoryinfo commons_subcats index names = Ok index' ->
  (forall k, is_Some (index !! k) -> is_Some (index' !! k)) /\
  (forall k,
     Forall (fun p => p_title p <> Some k)
            (pages_of (commons_categoryinfo (GoString.Join names "|"))) ->
     index' !! k = index !! k).
Proof.
  intros Hq.
  apply (queryCommons_flat commons_categoryinfo commons_subcats) in Hq. split.
  - intros k Hk. apply (proj2 (store_pages_keys commons_subcats _ k _ _ Hq)). by left.
  - intros k Hall. exact (store_pages_frame commons_subcats _ k _ _ Hq Hall).
Qed.

(** Once all queries are done, the keys of the index are exactly the
    titles of the pages the service returned to them. *)
Theorem fetch_keys (commons_categoryinfo commons_subcats : string -> responses)
    (queries : list (list string)) (index : gmap string categoryInfo) :
  fetch commons_categoryinfo commons_subcats queries = Ok index ->
  forall k, is_Some (index !! k) <->
            exists p, p ∈ reported_pages commons_categoryinfo queries /\
                      p_title p = Some k.
Proof.
  intros Hfetch k.
  apply (fetch_from_flat commons_categoryinfo commons_subcats) in Hfetch.
  rewrite (store_pages_keys commons_subcats _ k _ _ Hfetch), lookup_empty.
  split; [intros [[? [=]]|H]; done|by right].
Qed.

(** When a query is done, the file and subcategory counts kept for a
    title its answer is about are those of the last page of that answer
    with the title (0 for a count the page lacks). *)
Theorem queryCommons_last_report_wins
    (commons_categoryinfo commons_subcats : string -> responses)
    (index index' : gmap string categoryInfo) (names : list string)
    (earlier later : list page) (p : page) (k : string) :
  queryCommons commons_categoryinfo commons_subcats index names = Ok index' ->
  pages_of (commons_categoryinfo (GoString.Join names "|")) = earlier ++ p :: later ->
  p_title p = Some k ->
  Forall (fun p' => p_title p' <> Some k) later ->
  exists ci, index' !! k = Some ci /\
    files ci = default 0 (p_files p) /\ subCats ci = default 0 (p_subcats p).
Proof.
  intros Hq Hpages Hk Hlater.
  apply (queryCommons_flat commons_categoryinfo commons_subcats) in Hq.
  rewrite Hpages, fold_result_app in Hq.
  destruct (fold_result _ index earlier) as [index1|]; simpl in Hq; [|done].
  destruct (store_page commons_subcats index1 p) as [index2|] eqn:Hstore;
    simpl in Hq; [|done].
  rewrite (store_pages_frame commons_subcats _ k _ _ Hq Hlater).
  by apply (store_page_lookup _ _ _ _ k Hstore).
Qed.

Lemma queryCommons_frame_witness :
  (forall k,
     is_Some (({[ "Category:Bar"%string := CategoryInfo 1 0 0 ]}
               : gmap string categoryInfo) !! k) ->
     is_Some (({[ "Category:Bar"%string := CategoryInfo 1 0 0;
                  "Category:Foo"%string := CategoryInfo 3 1 2 ]}
               : gmap string categoryInfo) !! k)) /\
  (forall k,
     Forall (fun p => p_title p <> Some k)
            (pages_of (Demo.commons_categoryinfo
                         (GoString.Join ["Category:Foo"%string] "|"))) ->
     ({[ "Category:Bar"%string := CategoryInfo 1 0 0;
         "Category:Foo"%string := CategoryInfo 3 1 2 ]}
      : gmap string categoryInfo) !! k
     = ({[ "Category:Bar"%string := CategoryInfo 1 0 0 ]}
        : gmap string categoryInfo) !! k).
Proof.
  apply (queryCommons_frame Demo.commons_categoryinfo Demo.commons_subcats).
  vm_compute. reflexivity.
Defined.

Lemma fetch_keys_witness :
  is_Some (({[ "Category:Foo"%string := CategoryInfo 3 1 2 ]}
            : gmap string categoryInfo) !! "Category:Foo"%string) <->
  exists p, p ∈ reported_pages Demo.commons_categoryinfo [["Category:Foo"%string]] /\
            p_title p = Some "Category:Foo"%string.
Proof.
  apply (fetch_keys Demo.commons_categoryinfo Demo.commons_subcats).
  vm_compute. reflexivity.
Defined.

Lemma queryCommons_last_report_wins_witness :
  exists ci,
    ({[ "Category:Bar"%string := CategoryInfo 1 0 0;
        "Category:Foo"%string := CategoryInfo 0 0 2 ]} : gmap string categoryInfo)
      !! "Category:Foo"%string = Some ci /\
    files ci = default 0 (p_files (Page (Some "Category:Foo"%string) None None)) /\
    subCats ci = default 0 (p_subcats (Page (Some "Category:Foo"%string) None None)).
Proof.
  apply (queryCommons_last_report_wins Demo.commons_twice Demo.commons_subcats
           {[ "Category:Bar"%string := CategoryInfo 1 0 0 ]} _
           ["Category:Foo"%string]
           [Page (Some "Category:Foo"%string) (Some 3) (Some 1)] []).
  - vm_compute. reflexivity.
  - reflexivity.
  - reflexivity.
  - constructor.
Defined.

(** ** The whole run *)

Lemma group_specimens_members growcap specimens :
  all_members (g_heap (group_specimens growcap specimens))
              (specimensByWikidataId (group_specimens growcap specimens))
  ≡ₚ specimens.
Proof.
  rewrite all_members_groups.
  induction specimens as [|x l IH] using rev_ind; [done|].
  rewrite group_specimens_snoc.
  destruct (group_specimens_spec growcap l) as (Hwf & _ & _).
  destruct (group_step_spec growcap _ x Hwf) as (_ & -> & _).
  rewrite flat_map_snd_insert_snoc. by apply Permutation_app_tail.
Qed.

Lemma merge_all_members h index entries :
  merge h index entries
  = merge_specimen index <$> flat_map (fun e => Slice.view h e.2) entries.
Proof.
  unfold merge. induction entries as [|e entries IH]; simpl; [done|].
  by rewrite fmap_app, IH.
Qed.

Lemma flat_map_snd_fmap {A B} (f : A -> B) (l : list (string * list A)) :
  flat_map snd (prod_map (@id string) (fmap f : list A -> list B) <$> l)
  = f <$> flat_map snd l.
Proof.
  induction l as [|[k x] l IH]; [done|].
  rewrite fmap_cons. cbn [flat_map]. rewrite fmap_app. f_equal. exact IH.
Qed.

(** After the loop over the answer, the groups hold the specimens of the
    catalog, each resolved. *)
Lemma resolved_members growcap specimens rows st :
  resolve (group_specimens growcap specimens) rows = Ok st ->
  all_members (r_heap st) (specimensByWikidataId (group_specimens growcap specimens))
  ≡ₚ resolve_specimen rows <$> specimens.
Proof.
  set (g := group_specimens growcap specimens). intros Hres.
  destruct (resolve_spec g rows) as (st' & Hres' & _ & _ & _ & _ & Hheap).
  assert (st' = st) as -> by congruence.
  destruct (group_specimens_spec growcap specimens) as (Hwf & Hgroups & _).
  fold g in Hwf, Hgroups.
  destruct (resolve_heap_spec (specimensByWikidataId g) rows _ Hwf) as (_ & Hafter).
  rewrite <- Hheap in Hafter.
  assert (Hmap : groups (r_heap st) (specimensByWikidataId g)
                 = (fmap (resolve_specimen rows) : list specimen -> list specimen)
                     <$> groups (g_heap g) (specimensByWikidataId g)).
  { apply map_eq. intros k. specialize (Hafter k). specialize (Hgroups k).
    rewrite lookup_fmap. unfold groups in *. rewrite !lookup_fmap in *.
    destruct (specimensByWikidataId g !! k) as [s|]; simpl in *; [|done].
    f_equal. rewrite Hafter, Hgroups.
    assert (Hkeys : Forall (fun x => group_key x = k)
                           (filter (fun x => group_key x = k) specimens)).
    { apply Forall_forall. intros x Hx. by apply list_elem_of_filter in Hx as [? _]. }
    revert Hkeys. generalize (filter (fun x => group_key x = k) specimens).
    intros l Hl. unfold resolve_specimen.
    destruct (resolved_name k rows) as [n|] eqn:Hn.
    - apply Forall_fmap_ext_1. eapply Forall_impl; [exact Hl|].
      simpl. intros x ->. by rewrite Hn.
    - rewrite <- (list_fmap_id l) at 1.
      apply Forall_fmap_ext_1. eapply Forall_impl; [exact Hl|].
      simpl. intros x ->. by rewrite Hn. }
  rewrite all_members_groups, Hmap, map_to_list_fmap, flat_map_snd_fmap.
  apply fmap_Permutation. rewrite <- all_members_groups.
  apply group_specimens_members.
Qed.

Lemma store_pages_total commons_subcats pages :
  (forall k, Forall is_Some (commons_subcats k)) ->
  Forall (fun p => is_Some (p_title p)) pages ->
  forall index, exists index',
    fold_result (store_page commons_subcats) index pages = Ok index'.
Proof.
  intros Hsub. induction 1 as [|p pages [title Htitle] _ IH]; intros index; simpl.
  - by eexists.
  - assert (exists index1, store_page commons_subcats index p = Ok index1)
      as [index1 ->].
    { unfold store_page. rewrite Htitle. simpl.
      destruct (0 <? default 0 (p_subcats p)); [|by eexists].
      rewrite queryCommonsSubcats_closed, decide_True by apply Hsub.
      by eexists. }
    simpl. apply IH.
Qed.

Lemma fold_check_Some {B} (f : B -> list page -> result B) pagess : forall b,
  fold_result (fun b resp => pages ← check resp; f b pages) b (Some <$> pagess)
  = fold_result f b pagess.
Proof.
  induction pagess as [|pages pagess IH]; intros b; simpl; [done|].
  destruct (f b pages); simpl; [apply IH|done].
Qed.

Lemma fetch_total commons_categoryinfo commons_subcats queries :
  (forall titles, well_formed (commons_categoryinfo titles)) ->
  (forall k, Forall is_Some (commons_subcats k)) ->
  forall index, exists index',
    fold_result (queryCommons commons_categoryinfo commons_subcats) index queries
    = Ok index'.
Proof.
  intros Hwf Hsub. induction queries as [|names queries IH]; intros index; simpl.
  - by eexists.
  - assert (exists index1,
              queryCommons commons_categoryinfo commons_subcats index names = Ok index1)
      as [index1 ->].
    { unfold queryCommons.
      destruct (Hwf (GoString.Join names "|")) as [Hall Htitles].
      apply Forall_is_Some_fmap in Hall as [pagess Hrs].
      rewrite Hrs in *. rewrite pages_of_Some in Htitles.
      rewrite (fold_check_Some (fold_result (store_page commons_subcats))).
      rewrite fold_result_concat. by apply store_pages_total. }
    simpl. apply IH.
Qed.

Section Run.
Variable growcap : nat -> nat.
Variable wdq_Get : string -> option wdqResponse.
Variable commons_categoryinfo : string -> responses.
Variable commons_subcats : string -> responses.
Variable range_map : gmap string Slice.t -> list (string * Slice.t).
(** [range] visits every entry of the map once. *)
Hypothesis range_map_perm : forall m, range_map m ≡ₚ map_to_list m.

Lemma updatedSpecimens_inv specimens out :
  updatedSpecimens growcap wdq_Get commons_categoryinfo commons_subcats range_map
    specimens = Ok out ->
  exists resp st index,
    wdq_Get (wdq_query specimens) = Some resp /\
    resp_Status resp = 200 /\
    Status_Error (resp_result resp) = "OK"%string /\
    resolve (group_specimens growcap specimens) (Props (resp_result resp)) = Ok st /\
    fetch commons_categoryinfo commons_subcats (commonsQueries st) = Ok index /\
    out ≡ₚ merge_specimen index
             <$> (resolve_specimen (Props (resp_result resp)) <$> specimens).
Proof.
  unfold updatedSpecimens, wdq_query.
  destruct (group_specimens_spec growcap specimens) as (_ & _ & ->).
  destruct (wdq_Get _) as [resp|]; simpl; [|done].
  destruct (resp_Status resp =? 200) eqn:Hstatus; [|done].
  destruct (String.eqb _ _) eqn:Herr; [|done].
  destruct (resolve _ _) as [st|] eqn:Hres; simpl; [|done].
  destruct (fetch _ _ _) as [index|] eqn:Hfetch; simpl; [|done].
  intros [= <-]. exists resp, st, index.
  apply Z.eqb_eq in Hstatus. apply String.eqb_eq in Herr.
  repeat (split; [done|]).
  rewrite merge_all_members. apply fmap_Permutation.
  rewrite <- (resolved_members _ _ _ _ Hres). unfold all_members.
  apply Permutation_flat_map, range_map_perm.
Qed.


(** On an answer of WDQ with status 200, "OK" and at most 50 rows, one
    query goes to Commons, with the names of all the rows; when Commons
    answers its queries with arrays of titled pages, the run gets to the
    merge and sends on as many specimens as were read. *)
Theorem updatedSpecimens_completes (specimens : list specimen) (resp : wdqResponse) :
  wdq_Get (wdq_query specimens) = Some resp ->
  resp_Status resp = 200 ->
  Status_Error (resp_result resp) = "OK"%string ->
  (length (Props (resp_result resp)) <= 50)%nat ->
  (forall titles, well_formed (commons_categoryinfo titles)) ->
  (forall k, Forall is_Some (commons_subcats k)) ->
  exists st out,
    resolve (group_specimens growcap specimens) (Props (resp_result resp)) = Ok st /\
    commonsQueries st = [row_name <$> Props (resp_result resp)] /\
    updatedSpecimens growcap wdq_Get commons_categoryinfo commons_subcats range_map
      specimens = Ok out /\
    length out = length specimens.
Proof.
  intros Hget Hstatus Herr Hrows Hwf Hsub.
  destruct (resolve_spec (group_specimens growcap specimens) (Props (resp_result resp)))
    as (st & Hres & Hnames & Hcat & _ & Hcount & _).
  assert (Hone : commonsQueries st = [row_name <$> Props (resp_result resp)]).
  { assert (Hlen : length (commonsQueries st) = 1%nat).
    { rewrite Hcount. unfold query_count. case_decide as Hz; [done|].
      symmetry.
      apply (Nat.div_unique _ _ _ (length (Props (resp_result resp)) - 1)); lia. }
    destruct (commonsQueries st) as [|q [|q' qs]]; simpl in Hlen; try lia.
    simpl in Hcat. rewrite app_nil_r in Hcat. by rewrite Hcat, Hnames. }
  assert (exists out,
            updatedSpecimens growcap wdq_Get commons_categoryinfo commons_subcats
              range_map specimens = Ok out) as [out Hrun].
  { unfold updatedSpecimens.
    destruct (group_specimens_spec growcap specimens) as (_ & _ & Hids).
    unfold wdq_query in Hget. rewrite Hids, Hget. simpl.
    rewrite Hstatus, Herr. simpl. rewrite Hres. simpl.
    destruct (fetch_total commons_categoryinfo commons_subcats (commonsQueries st)
                Hwf Hsub ∅) as [index Hfetch].
    unfold fetch. rewrite Hfetch. simpl. by eexists. }
  exists st, out. split; [done|]. split; [done|]. split; [done|].
  destruct (updatedSpecimens_inv _ _ Hrun)
    as (resp' & st' & index & _ & _ & _ & _ & _ & Hperm).
  by rewrite Hperm, !length_fmap.
Qed.
End Run.

(** What is published when [queryWdq] ends well: the text the template
    gives for the catalog's specimens, each once, in ascending order of
    original name, as the section and page of the command line. *)
Theorem queryWdq_publishes_the_catalog
    (growcap : nat -> nat) (wdq_Get : string -> option wdqResponse)
    (commons_categoryinfo commons_subcats : string -> responses)
    (range_map : gmap string Slice.t -> list (string * Slice.t))
    (pageTitle sectionNumber : string)
    (sort_Sort : (specimen -> specimen -> bool) -> list specimen -> list specimen)
    (template : Type) (ReadFile : option string)
    (Parse : string -> option template)
    (Execute : template -> list specimen -> string * option string)
    (wiki_Edit : editParams -> option unit)
    (specimens : list specimen) (parameters : editParams) :
  (forall m, range_map m ≡ₚ map_to_list m) ->
  sort_contract sort_Sort ->
  queryWdq growcap wdq_Get commons_categoryinfo commons_subcats range_map
    pageTitle sectionNumber sort_Sort template ReadFile Parse Execute wiki_Edit
    specimens = Ok parameters ->
  exists templateBytes tableTemplate buffer,
    ReadFile = Some templateBytes /\
    Parse templateBytes = Some tableTemplate /\
    wiki_Edit parameters = Some tt /\
    parameters = {| e_title := pageTitle; e_section := sectionNumber;
                    e_text := (Execute tableTemplate buffer).1;
                    e_summary := "Mise à jour"; e_notminor := "" |} /\
    catalog_fields <$> buffer ≡ₚ catalog_fields <$> specimens /\
    ascending byOriginalName_Less buffer.
Proof.
  intros Hrange Hsort. unfold queryWdq.
  destruct (updatedSpecimens _ _ _ _ _ specimens) as [out|] eqn:Hrun; simpl; [|done].
  unfold updateWikiPage.
  destruct ReadFile as [templateBytes|]; simpl; [|done].
  destruct (Parse templateBytes) as [tableTemplate|] eqn:Hparse; simpl; [|done].
  destruct (wiki_Edit _) as [[]|] eqn:Hedit; simpl; [|done].
  intros [= <-].
  exists templateBytes, tableTemplate, (specimensBuffer sort_Sort out).
  do 4 (split; [done|]).
  destruct (Hsort byOriginalName_Less out byOriginalName_ordering) as [Hperm Hasc].
  split; [|done]. unfold specimensBuffer. rewrite Hperm.
  destruct (updatedSpecimens_inv _ _ _ _ _ Hrange _ _ Hrun)
    as (resp & st & index & _ & _ & _ & _ & _ & Hout).
  rewrite Hout, <- !list_fmap_compose.
  erewrite list_fmap_ext; [reflexivity|].
  intros i s _. simpl. unfold resolve_specimen. by destruct (resolved_name _ _).
Qed.

Lemma demo_range_map_perm m : Demo.range_map m ≡ₚ map_to_list m.
Proof. reflexivity. Qed.

Lemma demo_well_formed titles : well_formed (Demo.commons_categoryinfo titles).
Proof.
  split.
  - constructor; [by eexists|constructor].
  - constructor; [by eexists|constructor].
Qed.

Lemma demo_subcats_arrays k : Forall is_Some (Demo.commons_subcats k).
Proof. constructor; [by eexists|constructor]. Qed.


Lemma updatedSpecimens_completes_witness :
  exists st out,
    resolve (group_specimens Demo.growcap catalog_specimens) [(1, "Foo"%string)]
    = Ok st /\
    commonsQueries st = [row_name <$> [(1, "Foo"%string)]] /\
    updatedSpecimens Demo.growcap Demo.wdq_Get Demo.commons_categoryinfo
      Demo.commons_subcats Demo.range_map catalog_specimens = Ok out /\
    length out = length catalog_specimens.
Proof.
  apply (updatedSpecimens_completes Demo.growcap Demo.wdq_Get
           Demo.commons_categoryinfo Demo.commons_subcats Demo.range_map
           demo_range_map_perm catalog_specimens
           (WdqResponse 200 (WdqResult "OK" [(1, "Foo"%string)]))).
  - reflexivity.
  - reflexivity.
  - reflexivity.
  - simpl. lia.
  - exact demo_well_formed.
  - exact demo_subcats_arrays.
Defined.

Lemma queryWdq_publishes_the_catalog_witness :
  exists templateBytes tableTemplate buffer,
    Some "tpl"%string = Some templateBytes /\
    (fun _ : string => Some tt) templateBytes = Some tableTemplate /\
    (fun _ : editParams => Some tt)
      {| e_title := "Projet:Collections"; e_section := "2";
         e_text := "Felis catus=5";
         e_summary := "Mise à jour"; e_notminor := "" |} = Some tt /\
    {| e_title := "Projet:Collections"; e_section := "2";
       e_text := "Felis catus=5";
       e_summary := "Mise à jour"; e_notminor := "" |}
    = {| e_title := "Projet:Collections"; e_section := "2";
         e_text := (Demo.Execute tableTemplate buffer).1;
         e_summary := "Mise à jour"; e_notminor := "" |} /\
    catalog_fields <$> buffer ≡ₚ catalog_fields <$> [Demo.foo] /\
    ascending byOriginalName_Less buffer.
Proof.
  apply (queryWdq_publishes_the_catalog Demo.growcap Demo.wdq_Get
           Demo.commons_categoryinfo Demo.commons_subcats Demo.range_map
           "Projet:Collections" "2" insertion_sort unit (Some "tpl"%string)
           (fun _ => Some tt) Demo.Execute (fun _ => Some tt) [Demo.foo]).
  - exact demo_range_map_perm.
  - exact insertion_sort_contract.
  - vm_compute. reflexivity.
Defined.

(** ** One group per identifier *)

Lemma groups_nonempty growcap specimens k l :
  groups (g_heap (group_specimens growcap specimens))
         (specimensByWikidataId (group_specimens growcap specimens)) !! k = Some l ->
  l <> [].
Proof.
  revert k l. induction specimens as [|x specimens IH] using rev_ind; intros k l.
  - unfold groups. simpl. by rewrite fmap_empty, lookup_empty.
  - rewrite group_specimens_snoc.
    destruct (group_specimens_spec growcap specimens) as (Hwf & _ & _).
    destruct (group_step_spec growcap _ x Hwf) as (_ & -> & _).
    rewrite lookup_insert. case_decide as Hk.
    + intros [= <-]. by destruct (default [] _).
    + apply IH.
Qed.

(** The first loop makes exactly one group for each identifier of the
    catalog, and no group is empty. *)
Theorem one_group_per_identifier (growcap : nat -> nat) (specimens : list specimen)
    (k : string) :
  (is_Some (specimensByWikidataId (group_specimens growcap specimens) !! k) <->
   exists s, s ∈ specimens /\ group_key s = k) /\
  (is_Some (specimensByWikidataId (group_specimens growcap specimens) !! k) ->
   group_members (group_specimens growcap specimens) k <> []).
Proof.
  set (g := group_specimens growcap specimens).
  destruct (group_specimens_spec growcap specimens) as (_ & Hgroups & _).
  fold g in Hgroups. specialize (Hgroups k).
  assert (Hlook : forall s, specimensByWikidataId g !! k = Some s ->
                            groups (g_heap g) (specimensByWikidataId g) !! k
                            = Some (Slice.view (g_heap g) s)).
  { intros s Hs. unfold groups. by rewrite lookup_fmap, Hs. }
  assert (Hne : is_Some (specimensByWikidataId g !! k) -> group_members g k <> []).
  { intros [s Hs]. unfold group_members, group_slice. rewrite Hs. simpl.
    eapply (groups_nonempty growcap specimens k). by apply Hlook. }
  split; [|done]. split.
  - intros Hsome. specialize (Hne Hsome).
    unfold group_members in Hne. rewrite <- groups_lookup, Hgroups in Hne.
    destruct (filter _ specimens) as [|s l] eqn:Hf; [done|].
    assert (Hin : s ∈ filter (fun s => group_key s = k) specimens)
      by (rewrite Hf; apply list_elem_of_here).
    apply list_elem_of_filter in Hin as [Hks Hin]. by exists s.
  - intros (s & Hs & Hk).
    destruct (specimensByWikidataId g !! k) as [sl|] eqn:Hsl; [by eexists|].
    exfalso. unfold groups in Hgroups. rewrite lookup_fmap, Hsl in Hgroups.
    simpl in Hgroups.
    assert (Hin : s ∈ filter (fun s => group_key s = k) specimens)
      by (apply list_elem_of_filter; by split).
    rewrite <- Hgroups in Hin. by apply elem_of_nil in Hin.
Qed.

(** ** The report does not depend on the order of the map *)

Lemma ascending_perm_unique (l1 : list specimen) : forall l2,
  l1 ≡ₚ l2 ->
  ascending byOriginalName_Less l1 -> ascending byOriginalName_Less l2 ->
  NoDup (OriginalName <$> l1) ->
  l1 = l2.
Proof.
  induction l1 as [|x l1 IH]; intros l2 Hperm Ha1 Ha2 Hnd.
  - by apply Permutation_nil in Hperm.
  - destruct l2 as [|y l2]; [by apply Permutation_sym, Permutation_nil_cons in Hperm|].
    apply ascending_cons in Ha1 as [Hx Ha1]. apply ascending_cons in Ha2 as [Hy Ha2].
    rewrite fmap_cons in Hnd. apply NoDup_cons in Hnd as [Hxn Hnd].
    assert (x = y) as ->.
    { assert (Hxin : x ∈ y :: l2) by (rewrite <- Hperm; apply list_elem_of_here).
      assert (Hyin : y ∈ x :: l1) by (rewrite Hperm; apply list_elem_of_here).
      apply elem_of_cons in Hxin as [Hxy|Hxin]; [done|].
      apply elem_of_cons in Hyin as [Hyx|Hyin]; [done|].
      pose proof (proj1 (Forall_forall _ _) Hy _ Hxin) as Hxy.
      pose proof (proj1 (Forall_forall _ _) Hx _ Hyin) as Hyx.
      unfold byOriginalName_Less in Hxy, Hyx.
      destruct (string_ltb_flip _ _ Hxy) as [Heq|Hlt]; [|congruence].
      destruct Hxn. rewrite Heq. by apply list_elem_of_fmap_2. }
    f_equal. apply IH; [by apply Permutation_cons_inv in Hperm|done|done|done].
Qed.

Lemma updatedSpecimens_any_order growcap wdq_Get commons_categoryinfo commons_subcats
    range_map1 range_map2 specimens :
  (forall m, range_map1 m ≡ₚ map_to_list m) ->
  (forall m, range_map2 m ≡ₚ map_to_list m) ->
  match updatedSpecimens growcap wdq_Get commons_categoryinfo commons_subcats
          range_map1 specimens,
        updatedSpecimens growcap wdq_Get commons_categoryinfo commons_subcats
          range_map2 specimens with
  | Ok out1, Ok out2 => out1 ≡ₚ out2
  | Fatal e1, Fatal e2 => e1 = e2
  | _, _ => False
  end.
Proof.
  intros H1 H2. unfold updatedSpecimens.
  destruct (check _) as [resp|]; simpl; [|done].
  destruct (resp_Status resp =? 200); [|done].
  destruct (String.eqb _ _); [|done].
  destruct (resolve _ _) as [st|]; simpl; [|done].
  destruct (fetch _ _ _) as [index|]; simpl; [|done].
  rewrite !merge_all_members. apply fmap_Permutation, Permutation_flat_map.
  by rewrite H1, H2.
Qed.

(** When no two specimens of the catalog have the same original name, the
    outcome of [queryWdq], the text published included, is the same
    whatever the order in which Go walks the map and whatever way
    [sort.Sort] meets its contract. *)
Theorem report_independent_of_map_order
    (growcap : nat -> nat) (wdq_Get : string -> option wdqResponse)
    (commons_categoryinfo commons_subcats : string -> responses)
    (range_map1 range_map2 : gmap string Slice.t -> list (string * Slice.t))
    (pageTitle sectionNumber : string)
    (sort_Sort1 sort_Sort2
       : (specimen -> specimen -> bool) -> list specimen -> list specimen)
    (template : Type) (ReadFile : option string)
    (Parse : string -> option template)
    (Execute : template -> list specimen -> string * option string)
    (wiki_Edit : editParams -> option unit)
    (specimens : list specimen) :
  (forall m, range_map1 m ≡ₚ map_to_list m) ->
  (forall m, range_map2 m ≡ₚ map_to_list m) ->
  sort_contract sort_Sort1 -> sort_contract sort_Sort2 ->
  NoDup (OriginalName <$> specimens) ->
  queryWdq growcap wdq_Get commons_categoryinfo commons_subcats range_map1
    pageTitle sectionNumber sort_Sort1 template ReadFile Parse Execute wiki_Edit
    specimens
  = queryWdq growcap wdq_Get commons_categoryinfo commons_subcats range_map2
      pageTitle sectionNumber sort_Sort2 template ReadFile Parse Execute wiki_Edit
      specimens.
Proof.
  intros Hr1 Hr2 Hs1 Hs2 Hnd. unfold queryWdq.
  pose proof (updatedSpecimens_any_order growcap wdq_Get commons_categoryinfo
                commons_subcats range_map1 range_map2 specimens Hr1 Hr2) as Hruns.
  destruct (updatedSpecimens _ _ _ _ range_map1 specimens) as [out1|e1] eqn:Hrun1;
    destruct (updatedSpecimens _ _ _ _ range_map2 specimens) as [out2|e2] eqn:Hrun2;
    try done; simpl; [|by rewrite Hruns].
  assert (Hbuf : specimensBuffer sort_Sort1 out1 = specimensBuffer sort_Sort2 out2).
  { unfold specimensBuffer.
    destruct (Hs1 byOriginalName_Less out1 byOriginalName_ordering) as [Hp1 Ha1].
    destruct (Hs2 byOriginalName_Less out2 byOriginalName_ordering) as [Hp2 Ha2].
    apply ascending_perm_unique; [by rewrite Hp1, Hp2|done|done|].
    rewrite Hp1.
    destruct (updatedSpecimens_inv _ _ _ _ _ Hr1 _ _ Hrun1)
      as (resp & st & index & _ & _ & _ & _ & _ & Hout).
    rewrite Hout, <- !list_fmap_compose.
    erewrite list_fmap_ext; [exact Hnd|].
    intros i s _. simpl. unfold resolve_specimen. by destruct (resolved_name _ _). }
  unfold updateWikiPage. by rewrite Hbuf.
Qed.

Lemma range_map_backwards_perm m : range_map_backwards m ≡ₚ map_to_list m.
Proof. apply reverse_Permutation. Qed.

Lemma insertion_sort_backwards_contract : sort_contract insertion_sort_backwards.
Proof.
  intros less l Hless. unfold insertion_sort_backwards.
  destruct (insertion_sort_contract less (reverse l) Hless) as [Hperm Hasc].
  split; [|done]. by rewrite Hperm, reverse_Permutation.
Qed.

Lemma report_independent_of_map_order_witness :
  queryWdq Demo.growcap Demo.wdq_Get Demo.commons_categoryinfo Demo.commons_subcats
    Demo.range_map "Projet:Collections" "2" insertion_sort unit (Some "tpl"%string)
    (fun _ => Some tt) Demo.Execute (fun _ => Some tt) Demo.two_taxa
  = queryWdq Demo.growcap Demo.wdq_Get Demo.commons_categoryinfo Demo.commons_subcats
      range_map_backwards "Projet:Collections" "2" insertion_sort_backwards unit
      (Some "tpl"%string) (fun _ => Some tt) Demo.Execute (fun _ => Some tt)
      Demo.two_taxa.
Proof.
  apply report_independent_of_map_order.
  - exact demo_range_map_perm.
  - exact range_map_backwards_perm.
  - exact insertion_sort_contract.
  - exact insertion_sort_backwards_contract.
  - apply NoDup_cons. split; [|apply NoDup_singleton].
    intros H. apply list_elem_of_singleton in H. discriminate.
Defined.

(** ** Malformed answers *)

Lemma store_pages_titled commons_subcats pages : forall index index',
  fold_result (store_page commons_subcats) index pages = Ok index' ->
  Forall (fun p => is_Some (p_title p)) pages.
Proof.
  induction pages as [|p pages IH]; intros index index'; simpl; [constructor|].
  destruct (store_page commons_subcats index p) as [index1|] eqn:Hstore; simpl; [|done].
  intros Hrest. constructor; [|by eapply IH].
  unfold store_page in Hstore. by destruct (p_title p).
Qed.

(** The index is built only if every query made was answered with arrays
    of pages that all have a title: one response or page that is not so
    ends the whole run, whichever query it answers, and no index is left. *)
Theorem fetch_needs_well_formed_answers
    (commons_categoryinfo commons_subcats : string -> responses)
    (queries : list (list string)) (index : gmap string categoryInfo)
    (names : list string) :
  fetch commons_categoryinfo commons_subcats queries = Ok index ->
  names ∈ queries ->
  well_formed (commons_categoryinfo (GoString.Join names "|")).
Proof.
  unfold fetch. generalize (∅ : gmap string categoryInfo). intros index0 Hfetch Hin.
  revert index0 Hfetch.
  induction queries as [|names' queries IH]; intros index0; simpl;
    [by apply elem_of_nil in Hin|].
  destruct (queryCommons _ _ index0 names') as [index1|] eqn:Hq; simpl; [|done].
  intros Hrest. apply elem_of_cons in Hin as [->|Hin]; [|by eapply IH].
  clear IH Hrest. unfold queryCommons in Hq.
  apply (fold_check_pages (fold_result (store_page commons_subcats))) in Hq
    as (pagess & Hrs & Hfold).
  rewrite Hrs. split.
  - apply Forall_fmap, Forall_forall. intros pages _. by eexists.
  - rewrite pages_of_Some. rewrite fold_result_concat in Hfold.
    by eapply store_pages_titled.
Qed.

Lemma fetch_needs_well_formed_answers_witness :
  well_formed (Demo.commons_categoryinfo (GoString.Join ["Category:Foo"%string] "|")).
Proof.
  apply (fetch_needs_well_formed_answers Demo.commons_categoryinfo
           Demo.commons_subcats [["Category:Foo"%string]]
           {[ "Category:Foo"%string := CategoryInfo 3 1 2 ]}).
  - vm_compute. reflexivity.
  - apply list_elem_of_here.
Defined.
